(** * directed_graph_generator: the adjacency-matrix store and the generator

    A shallow embedding of [src/main.cpp].  The class [Graph] becomes the
    module [Graph]; the body of [main] becomes the functions of the section
    "The generator".  Unsigned 32-bit and 8-bit variables are integers of [Z]
    with their wrap-around written where the C++ arithmetic can wrap. *)

From Stdlib Require Import ZArith List String Ascii Bool Lia Permutation.
From Stdlib Require Import DecimalString.
From Stdlib Require Import Sorted.
Import ListNotations.
Open Scope Z_scope.

(** ** Machine integers *)

(** [uint32_t] arithmetic: results are reduced modulo 2^32. *)
Definition wrap32 (z : Z) : Z := z mod 2 ^ 32.

(** [uint8_t] arithmetic: results are reduced modulo 2^8. *)
Definition wrap8 (z : Z) : Z := z mod 2 ^ 8.

(** [# define MAX_ITERATIONS 256] *)
Definition MAX_ITERATIONS : Z := 256.

(** ** The class [Graph] *)

Module Graph.

(** The three private members.  [matrix] is a pointer to a heap buffer of
    [bool]; it is modelled by the memory it points to, as a function from the
    offset to the byte stored there.  Offsets at or beyond [allocated] lie
    outside the buffer: the model keeps reading and writing the same memory
    function there. *)
Record t : Type := mk {
  num_vertices : Z;
  num_edges : Z;
  matrix : Z -> bool
}.

(** [matrix[i] = b] *)
Definition store (m : Z -> bool) (i : Z) (b : bool) : Z -> bool :=
  fun j => if j =? i then b else m j.

(** Length of the buffer requested by [new bool[num_vertices*num_vertices]]:
    the product is a [uint32_t] product. *)
Definition allocated (n : Z) : Z := wrap32 (n * n).

(** The constructor's loop
    [for(uint32_t i = 0; i < num_vertices; i++) matrix[i] = false;]
    with [count] iterations left and the loop variable at [i]. *)
Fixpoint initialize (count : nat) (i : Z) (m : Z -> bool) : Z -> bool :=
  match count with
  | O => m
  | S count' => initialize count' (wrap32 (i + 1)) (store m i false)
  end.

(** [Graph(uint32_t num_vertices)].  [new bool[...]] does not initialise the
    buffer, so what it holds before the loop runs is not decided by the
    program: it is the argument [fresh]. *)
Definition new (fresh : Z -> bool) (n : Z) : t :=
  {| num_vertices := n;
     num_edges := 0;
     matrix := initialize (Z.to_nat n) 0 fresh |}.

(** The offset [from + to * num_vertices], a [uint32_t] expression. *)
Definition index (g : t) (from to : Z) : Z :=
  wrap32 (from + to * num_vertices g).

(** [void add_edge(uint32_t from, uint32_t to)] *)
Definition add_edge (from to : Z) (g : t) : unit * t :=
  (tt, {| num_vertices := num_vertices g;
          num_edges := wrap32 (num_edges g + 1);
          matrix := store (matrix g) (index g from to) true |}).

(** [bool has_edge(uint32_t from, uint32_t to)] *)
Definition has_edge (from to : Z) (g : t) : bool * t :=
  (matrix g (index g from to), g).

Definition get_num_vertices (g : t) : Z := num_vertices g.

Definition get_num_edges (g : t) : Z := num_edges g.

End Graph.

(** ** Random sources *)

(** A pseudo-random engine is the sequence of numbers it will return and the
    number of draws made so far.  The program uses two of them:
    [std::default_random_engine rng(seed)] for the edges and the C library's
    [rand()] inside [std::random_shuffle]. *)
Record Rng : Type := mkRng {
  draws : nat -> N;
  position : nat
}.

Definition seeded (s : nat -> N) : Rng := {| draws := s; position := O |}.

(** One call [rng()]: the next number and the advanced engine. *)
Definition next (r : Rng) : Z * Rng :=
  (Z.of_N (draws r (position r)),
   {| draws := draws r; position := S (position r) |}).

(** [std::minstd_rand0], the engine that [std::default_random_engine] names
    in the GNU C++ library: the state is multiplied by 16807 modulo 2^31 - 1
    at each call and returned; seeding with [s] starts from [s] modulo
    2^31 - 1, or from 1 when that is 0. *)
Definition minstd_modulus : N := 2147483647.

Definition minstd_seed (s : N) : N :=
  if (s mod minstd_modulus =? 0)%N then 1%N else (s mod minstd_modulus)%N.

Fixpoint minstd_state (s : N) (calls : nat) : N :=
  match calls with
  | O => minstd_seed s
  | S calls' => ((16807 * minstd_state s calls') mod minstd_modulus)%N
  end.

Definition minstd_rand0 (s : N) : nat -> N := fun k => minstd_state s (S k).

(** ** The generator: [main] *)

(** The command line after [atoi]: [argv[1]] to [argv[3]] as the [int] that
    [atoi] returned, [argv[4]] to [argv[6]] as text. *)
Record Argv : Type := mkArgv {
  arg_num_vertices : Z;
  arg_min_graph_depth : Z;
  arg_additional_edges : Z;
  arg_has_cicles : string;
  arg_shuffle : string;
  arg_output_name : string
}.

(** [uint32_t num_vertices = atoi(argv[1]);] and the other locals. *)
Definition num_vertices (a : Argv) : Z := wrap32 (arg_num_vertices a).
Definition min_graph_depth (a : Argv) : Z := wrap32 (arg_min_graph_depth a).
Definition additional_edges (a : Argv) : Z := wrap32 (arg_additional_edges a).
(** [strcmp(argv[4], "true") == 0] *)
Definition has_cicles (a : Argv) : bool := String.eqb (arg_has_cicles a) "true".
Definition shuffle (a : Argv) : bool := String.eqb (arg_shuffle a) "true".

Definition endl : string := String "010"%char EmptyString.

Definition usage_text : string :=
  ("Usage: ./$(name) $(num_vertices) $(min_graph_depth) $(additional_edges) $(has_cicles) $(shuffle) $(output_name)"
   ++ endl)%string.

Definition depth_text : string :=
  ("$(min_graph_depth) must be lower than $(num_vertices)!" ++ endl)%string.

Definition cicles_text : string :=
  ("$(has_cicles) must be false if $(additional_edges) is less than 1!" ++ endl)%string.

Definition iterations_text : string :=
  ("ERROR: too many iterations trying to generate an edge! Are you sure a graph with your parameters is possible?"
   ++ endl)%string.

(** The two checks of the parameters, in the order of [main]: [Some] text is
    the message printed before [return 1]. *)
Definition validate (a : Argv) : option string :=
  if min_graph_depth a >? num_vertices a then Some depth_text
  else if has_cicles a && (additional_edges a <? 1) then Some cicles_text
  else None.

(** [for(int i = 1; i < min_graph_depth; i++) graph.add_edge(i - 1, i);]
    with [count] iterations left and the loop variable at [i]; the edges are
    also returned in the order of the calls. *)
Fixpoint seed_chain (count : nat) (i : Z) (g : Graph.t) : Graph.t * list (Z * Z) :=
  match count with
  | O => (g, [])
  | S count' =>
      let from := wrap32 (i - 1) in
      let to := wrap32 i in
      let g1 := snd (Graph.add_edge from to g) in
      let (g2, rest) := seed_chain count' (i + 1) g1 in
      (g2, (from, to) :: rest)
  end.

(** Number of iterations of the loop above: [i] runs over [1 .. depth-1],
    and over nothing when [depth] is 0 or 1 (the comparison is unsigned). *)
Definition chain_length (depth : Z) : nat := Z.to_nat (depth - 1).

(** The variables that live across the iterations of the [while] loop. *)
Record Loop : Type := mkLoop {
  graph : Graph.t;
  rng : Rng;
  current_additional_edges : Z;
  current_iterations : Z
}.

(** What one iteration of the loop body does. *)
Inductive Attempt : Type :=
| Accepted (rand_from rand_to : Z) (s : Loop)
| Rejected (s : Loop)
| TooManyIterations
| ModuloByZero.

(** The three lines
    [graph.add_edge(rand_from, rand_to); current_additional_edges++;
     current_iterations = 0; continue;] *)
Definition accept (s : Loop) (g : Graph.t) (r : Rng) (rand_from rand_to : Z) : Attempt :=
  Accepted rand_from rand_to
    {| graph := snd (Graph.add_edge rand_from rand_to g);
       rng := r;
       current_additional_edges := wrap32 (current_additional_edges s + 1);
       current_iterations := 0 |}.

(** The end of the loop body, reached when no edge was added:
    [if(current_iterations > MAX_ITERATIONS) { ...; return 1; }
     current_iterations++;]
    where [current_iterations] is a [uint8_t]. *)
Definition reject (s : Loop) (g : Graph.t) (r : Rng) : Attempt :=
  if current_iterations s >? MAX_ITERATIONS then TooManyIterations
  else Rejected
    {| graph := g;
       rng := r;
       current_additional_edges := current_additional_edges s;
       current_iterations := wrap8 (current_iterations s + 1) |}.

(** The body of [while (current_additional_edges < additional_edges)].
    [x % y] with [y = 0] has no defined result: [ModuloByZero].  A remainder
    [rng() % y] is below [y], so storing it in a [uint32_t] changes
    nothing. *)
Definition attempt (a : Argv) (s : Loop) : Attempt :=
  let g := graph s in
  let (r1, rng1) := next (rng s) in
  if Graph.get_num_vertices g =? 0 then ModuloByZero else
  let rand_to := r1 mod Graph.get_num_vertices g in
  if has_cicles a then
    if current_additional_edges s =? 0 then
      if min_graph_depth a =? 0 then ModuloByZero else
      let rand_to := rand_to mod min_graph_depth a in
      let (r2, rng2) := next rng1 in
      let rand_from := r2 mod min_graph_depth a in
      if negb (rand_from =? rand_to) then
        let (present, g1) := Graph.has_edge rand_from rand_to g in
        if negb present then accept s g1 rng2 rand_from rand_to
        else reject s g1 rng2
      else reject s g rng2
    else
      let (r2, rng2) := next rng1 in
      let rand_from := r2 mod Graph.get_num_vertices g in
      if negb (rand_from =? rand_to) then
        let (present, g1) := Graph.has_edge rand_from rand_to g in
        if negb present then accept s g1 rng2 rand_from rand_to
        else reject s g1 rng2
      else reject s g rng2
  else
    if rand_to >? 0 then
      let (r2, rng2) := next rng1 in
      let rand_from := r2 mod rand_to in
      let (present, g1) := Graph.has_edge rand_from rand_to g in
      if negb present then accept s g1 rng2 rand_from rand_to
      else reject s g1 rng2
    else reject s g rng1.

(** How the [while] loop ends. *)
Inductive Sampling : Type :=
| Finished (s : Loop) (inserted : list (Z * Z))
| Aborted
| Faulted
| Running.

(** The [while] loop, run for at most [fuel] iterations ([Running] when they
    do not suffice).  [inserted] lists the arguments of the [add_edge] calls
    made so far, oldest first. *)
Fixpoint sampling (fuel : nat) (a : Argv) (s : Loop) (inserted : list (Z * Z)) : Sampling :=
  if current_additional_edges s <? additional_edges a then
    match fuel with
    | O => Running
    | S fuel' =>
        match attempt a s with
        | Accepted rand_from rand_to s' =>
            sampling fuel' a s' (inserted ++ [(rand_from, rand_to)])
        | Rejected s' => sampling fuel' a s' inserted
        | TooManyIterations => Aborted
        | ModuloByZero => Faulted
        end
    end
  else Finished s inserted.

(** The state in which the [while] loop is entered. *)
Definition enter_loop (g : Graph.t) (r : Rng) : Loop :=
  {| graph := g; rng := r; current_additional_edges := 0; current_iterations := 0 |}.

(** Everything [main] does between reading its arguments and opening the
    output file. *)
Inductive Generation : Type :=
| Generated (g : Graph.t) (inserted : list (Z * Z))
| Invalid (message : string)
| Exhausted
| Crashed
| Unfinished.

Definition generate (a : Argv) (fresh : Z -> bool) (seed : nat -> N) (fuel : nat) : Generation :=
  match validate a with
  | Some message => Invalid message
  | None =>
      let g0 := Graph.new fresh (num_vertices a) in
      let (g1, chain) := seed_chain (chain_length (min_graph_depth a)) 1 g0 in
      match sampling fuel a (enter_loop g1 (seeded seed)) chain with
      | Finished s inserted => Generated (graph s) inserted
      | Aborted => Exhausted
      | Faulted => Crashed
      | Running => Unfinished
      end
  end.

(** ** Output *)

(** Decimal text of an unsigned number, as [operator<<] and
    [std::to_string] print it. *)
Definition to_string (z : Z) : string :=
  NilZero.string_of_uint (N.to_uint (Z.to_N z)).

(** [for(int i = 0; i < graph.get_num_vertices(); i++)
       vertex_numbers.push_back(i);] *)
Fixpoint fill_vertex_numbers (count : nat) (i : Z) (v : list Z) : list Z :=
  match count with
  | O => v
  | S count' => fill_vertex_numbers count' (i + 1) (v ++ [wrap32 i])
  end.

(** [v[i] = x] on a vector; the length never changes. *)
Fixpoint assign (v : list Z) (i : nat) (x : Z) : list Z :=
  match v, i with
  | [], _ => []
  | _ :: rest, O => x :: rest
  | y :: rest, S i' => y :: assign rest i' x
  end.

(** [std::iter_swap(first + i, first + j)] *)
Definition iter_swap (v : list Z) (i j : nat) : list Z :=
  assign (assign v i (nth j v 0)) j (nth i v 0).

(** The loop of [std::random_shuffle(first, last)] in the GNU C++ library:
    [for (i = first + 1; i != last; ++i)
       { j = first + std::rand() % ((i - first) + 1);
         if (i != j) std::iter_swap(i, j); }]
    with [count] iterations left. *)
Fixpoint shuffle_loop (count : nat) (i : nat) (v : list Z) (rand : Rng) : list Z * Rng :=
  match count with
  | O => (v, rand)
  | S count' =>
      let (r, rand1) := next rand in
      let j := Z.to_nat (r mod (Z.of_nat i + 1)) in
      shuffle_loop count' (S i) (if Nat.eqb i j then v else iter_swap v i j) rand1
  end.

Definition random_shuffle (v : list Z) (rand : Rng) : list Z * Rng :=
  match v with
  | [] => (v, rand)
  | _ :: _ => shuffle_loop (List.length v - 1) 1%nat v rand
  end.

(** The vector [vertex_numbers] as the printing loop sees it. *)
Definition vertex_numbers (a : Argv) (g : Graph.t) (rand : Rng) : list Z :=
  let v := fill_vertex_numbers (Z.to_nat (Graph.get_num_vertices g)) 0 [] in
  if shuffle a then fst (random_shuffle v rand) else v.

(** One line of the edge list. *)
Definition edge_line (labels : list Z) (i j : Z) : string :=
  (to_string (nth (Z.to_nat i) labels 0) ++ " "
   ++ to_string (nth (Z.to_nat j) labels 0) ++ endl)%string.

(** The inner loop [for(int j = 0; j < graph.get_num_vertices(); j++)] of the
    printing, for a fixed [i]: the text written so far and the graph are
    passed along. *)
Fixpoint write_row (count : nat) (labels : list Z) (i j : Z) (g : Graph.t) (out : string)
  : string * Graph.t :=
  match count with
  | O => (out, g)
  | S count' =>
      let (present, g1) := Graph.has_edge (wrap32 i) (wrap32 j) g in
      let out1 := if present then (out ++ edge_line labels i j)%string else out in
      write_row count' labels i (j + 1) g1 out1
  end.

(** The outer loop [for(int i = 0; i < graph.get_num_vertices(); i++)]. *)
Fixpoint write_rows (count : nat) (labels : list Z) (i : Z) (g : Graph.t) (out : string)
  : string * Graph.t :=
  match count with
  | O => (out, g)
  | S count' =>
      let (out1, g1) :=
        write_row (Z.to_nat (Graph.get_num_vertices g)) labels i 0 g out in
      write_rows count' labels (i + 1) g1 out1
  end.

(** Everything written after the output file is opened; the graph is
    returned as the writing leaves it. *)
Definition write_graph (a : Argv) (g : Graph.t) (rand : Rng) : string * Graph.t :=
  let header :=
    (to_string (Graph.get_num_vertices g) ++ endl
     ++ to_string (Graph.get_num_edges g) ++ endl)%string in
  let labels := vertex_numbers a g rand in
  write_rows (Z.to_nat (Graph.get_num_vertices g)) labels 0 g header.

(** How a run of the program ends: [Exit code printed file], where [printed]
    is what went to the standard output and [file] is [None] as long as
    [std::ofstream out(argv[6])] was not reached and [Some text] once it was,
    [text] being what the program then sent to that stream; [Killed] after a
    division by zero; [Loops] when [fuel] iterations of the sampling loop
    were not enough.  The program never tests whether the stream could open
    its path: what reaches the disk is [written_file] below. *)
Inductive Outcome : Type :=
| Exit (code : Z) (printed : string) (file : option string)
| Killed
| Loops.

(** [int main(int argc, char *argv[])] *)
Definition main (argc : Z) (a : Argv) (fresh : Z -> bool) (seed rand : nat -> N) (fuel : nat)
  : Outcome :=
  if negb (argc =? 7) then Exit 0 usage_text None
  else
    match generate a fresh seed fuel with
    | Invalid message => Exit 1 message None
    | Exhausted => Exit 1 iterations_text None
    | Crashed => Killed
    | Unfinished => Loops
    | Generated g _ => Exit 0 EmptyString (Some (fst (write_graph a g (seeded rand))))
    end.

(** ** Paths and cycles of the stored graph *)

(** [(u, v)] is an edge of [g]: both are vertices and [has_edge(u, v)]
    answers true. *)
Definition edge (g : Graph.t) (u v : Z) : Prop :=
  0 <= u < Graph.get_num_vertices g /\
  0 <= v < Graph.get_num_vertices g /\
  fst (Graph.has_edge u v g) = true.

(** The graph obtained from [g] by the calls of [add_edge] listed in
    [calls], oldest first. *)
Definition replay (g : Graph.t) (calls : list (Z * Z)) : Graph.t :=
  fold_left (fun h e => snd (Graph.add_edge (fst e) (snd e) h)) calls g.

(** [(u, v)] is one of the pairs that were passed to [add_edge]. *)
Definition inserted_edge (calls : list (Z * Z)) (u v : Z) : Prop :=
  In (u, v) calls.

(** A directed walk with at least one edge along the relation [E], all of
    whose vertices are below [bound]. *)
Inductive walk (E : Z -> Z -> Prop) (bound : Z) : Z -> Z -> Prop :=
| walk_edge u v :
    u < bound -> v < bound -> E u v -> walk E bound u v
| walk_step u v w :
    u < bound -> E u v -> walk E bound v w -> walk E bound u w.

(** A directed cycle among the vertices below [bound]. *)
Definition cycle_within (E : Z -> Z -> Prop) (bound : Z) : Prop :=
  exists v, walk E bound v v.

(** The all-false buffer. *)
Definition zeroed : Z -> bool := fun _ => false.

(** The counts kept by the loop: the number of vertices is fixed, the loop's
    count stays within [additional_edges], and the graph is the replay of the
    pairs listed so far, [base] of which come from the chain. *)
Definition counted (a : Argv) (g0 : Graph.t) (base : Z) (s : Loop) (ins : list (Z * Z)) : Prop :=
  0 <= current_additional_edges s <= additional_edges a /\
  Z.of_nat (List.length ins) = base + current_additional_edges s /\
  graph s = replay g0 ins.

(** The labels [0, 1, ..., n-1] in this order. *)
Definition identity_labels (n : nat) : list Z := map Z.of_nat (seq 0 n).


(** ** Runs used below *)

(** A buffer whose byte at offset 6 was left non-zero by an earlier use of
    the memory, and is zero elsewhere. *)
Definition stale : Z -> bool := fun i => i =? 6.

(** An engine that returns the same number at every call. *)
Definition constant (x : N) : nat -> N := fun _ => x.

(** [5 3 0 false false out.txt] *)
Definition chain_only : Argv := mkArgv 5 3 0 "false" "false" "out.txt".

(** [3 3 1 true false out.txt], run with the engine seeded by 1700000011. *)
Definition one_cyclic_edge : Argv := mkArgv 3 3 1 "true" "false" "out.txt".

(** [1 1 1 false false out.txt] *)
Definition single_vertex : Argv := mkArgv 1 1 1 "false" "false" "out.txt".

(** [5 0 0 false false out.txt] *)
Definition no_depth : Argv := mkArgv 5 0 0 "false" "false" "out.txt".

(** [3 0 1 false false out.txt] *)
Definition no_depth_one_edge : Argv := mkArgv 3 0 1 "false" "false" "out.txt".

(** [4 3 1 false true out.txt] *)
Definition shuffled_dag : Argv := mkArgv 4 3 1 "false" "true" "out.txt".

(** [3 5 0 false false out.txt] *)
Definition too_deep : Argv := mkArgv 3 5 0 "false" "false" "out.txt".

(** The text [5\n2\n0 1\n1 2\n]. *)
Definition chain_only_text : string :=
  ("5" ++ endl ++ "2" ++ endl ++ "0 1" ++ endl ++ "1 2" ++ endl)%string.

(** The text [5\n2\n0 1\n1 1\n1 2\n]. *)
Definition chain_only_stale_text : string :=
  ("5" ++ endl ++ "2" ++ endl ++ "0 1" ++ endl ++ "1 1" ++ endl ++ "1 2" ++ endl)%string.

(** The text [3\n3\n0 1\n0 2\n1 2\n]. *)
Definition one_cyclic_edge_text : string :=
  ("3" ++ endl ++ "3" ++ endl ++ "0 1" ++ endl ++ "0 2" ++ endl ++ "1 2" ++ endl)%string.

(** ** Reading the stored graph back *)

(** [has_edge] as a test on a pair of vertices. *)
Definition stored (g : Graph.t) (e : Z * Z) : bool :=
  fst (Graph.has_edge (fst e) (snd e) g).

(** All pairs [(i, j)] of numbers below [n], in the order in which the two
    printing loops visit them: [i] outside, [j] inside. *)
Definition scan (n : nat) : list (Z * Z) :=
  list_prod (identity_labels n) (identity_labels n).

(** The pairs for which [has_edge] answers true, in printing order. *)
Definition stored_edges (g : Graph.t) : list (Z * Z) :=
  filter (stored g) (scan (Z.to_nat (Graph.get_num_vertices g))).



(** The pairs [(f, t)] with [f < t < n]: all the edges a graph on [n]
    vertices can have when every edge goes upwards. *)
Definition upward_pairs (n : nat) : list (Z * Z) :=
  flat_map (fun t => map (fun f => (Z.of_nat f, Z.of_nat t)) (seq 0 t)) (seq 0 n).

(** The pairs of the chain loop for a given depth. *)
Definition chain_pairs (depth : Z) : list (Z * Z) :=
  map (fun k => (Z.of_nat k, Z.of_nat k + 1)) (seq 0 (chain_length depth)).

(** Where a vertex pair may lie: both ends are vertices and they differ. *)
Definition proper_pair (n : Z) (e : Z * Z) : Prop :=
  0 <= fst e < n /\ 0 <= snd e < n /\ fst e <> snd e.


(** ** The output file on disk *)

(** What the run leaves at the path [argv[6]].  [opens path] tells whether
    [std::ofstream out(path)] can open [path] for writing.  The stream is
    constructed only by a run that reaches line 180; when the path opens,
    the file is created or truncated and receives all the text sent to the
    stream; when it does not, the writes are lost and no file is written,
    and the program goes on to [return 0] all the same.  The answer is the
    path and the content of the file written, if any. *)
Definition written_file (opens : string -> bool) (a : Argv) (o : Outcome)
  : option (string * string) :=
  match o with
  | Exit _ _ (Some text) =>
      if opens (arg_output_name a) then Some (arg_output_name a, text) else None
  | _ => None
  end.



(** ** More runs *)

Definition no_path : string -> bool := fun _ => false.

(** [5 3 0 false false /nonexistent_dir/out.txt] *)
Definition chain_only_nowhere : Argv :=
  mkArgv 5 3 0 "false" "false" "/nonexistent_dir/out.txt".

(** An engine that returns 0, 1, 2, ... *)
Definition counting : nat -> N := N.of_nat.

(** [0 0 1 false false out.txt] *)
Definition no_vertices : Argv := mkArgv 0 0 1 "false" "false" "out.txt".

(** [2 2 1 true false out.txt] *)
Definition two_cycle : Argv := mkArgv 2 2 1 "true" "false" "out.txt".

(** [3 1 1 true false out.txt] *)
Definition depth_one_cyclic : Argv := mkArgv 3 1 1 "true" "false" "out.txt".

(** [2 2 2 true false out.txt] *)
Definition crowded : Argv := mkArgv 2 2 2 "true" "false" "out.txt".

(** [3 3 2 false false out.txt] *)
Definition too_many_edges : Argv := mkArgv 3 3 2 "false" "false" "out.txt".

(** The state of a graph on 65537 vertices, whose square no longer fits in
    32 bits, with no edge. *)
Definition wide : Graph.t :=
  {| Graph.num_vertices := 65537; Graph.num_edges := 0; Graph.matrix := zeroed |}.

(** ** Case analysis on one iteration *)

Ltac split_ifs H :=
  repeat match type of H with
         | context [if ?c then _ else _] => destruct c eqn:?
         end.

Ltac open_attempt H :=
  unfold attempt, accept, reject, next, Graph.has_edge in H;
  cbn [fst snd] in H; split_ifs H; try discriminate H.

(** * Properties *)

(** ** Machine integers *)

Lemma wrap32_small (z : Z) : 0 <= z < 2 ^ 32 -> wrap32 z = z.
Proof. intros H. unfold wrap32. apply Z.mod_small. exact H. Qed.

Lemma wrap32_range (z : Z) : 0 <= wrap32 z < 2 ^ 32.
Proof. unfold wrap32. apply Z.mod_pos_bound. reflexivity. Qed.

Lemma wrap8_range (z : Z) : 0 <= wrap8 z < 2 ^ 8.
Proof. unfold wrap8. apply Z.mod_pos_bound. reflexivity. Qed.

Lemma two_32 : 2 ^ 32 = 4294967296.
Proof. reflexivity. Qed.

Lemma two_8 : 2 ^ 8 = 256.
Proof. reflexivity. Qed.

(** ** The store *)

Section Store.

Import Graph.

Lemma store_same (m : Z -> bool) (i : Z) (b : bool) : store m i b i = b.
Proof. unfold store. now rewrite Z.eqb_refl. Qed.

Lemma store_other (m : Z -> bool) (i j : Z) (b : bool) :
  j <> i -> store m i b j = m j.
Proof. intros H. unfold store. apply Z.eqb_neq in H. now rewrite H. Qed.

(** The constructor's loop clears exactly the offsets it walks over. *)
Lemma initialize_spec (count : nat) :
  forall (i : Z) (m : Z -> bool) (j : Z),
    0 <= i -> i + Z.of_nat count <= 2 ^ 32 ->
    initialize count i m j =
      if (i <=? j) && (j <? i + Z.of_nat count) then false else m j.
Proof.
  induction count as [|count IH]; intros i m j Hi Hn.
  - cbn [initialize]. replace (i + Z.of_nat 0) with i by lia.
    destruct (Z.leb_spec i j), (Z.ltb_spec j i); cbn; try reflexivity; lia.
  - cbn [initialize]. rewrite Nat2Z.inj_succ in *.
    destruct count as [|count].
    + cbn [initialize]. unfold store. change (Z.of_nat 0) with 0 in *.
      destruct (Z.leb_spec i j), (Z.ltb_spec j (i + Z.succ 0)),
        (Z.eqb_spec j i); cbn; try reflexivity; lia.
    + assert (Hc : 0 <= Z.of_nat count) by lia.
      rewrite Nat2Z.inj_succ in *.
      rewrite wrap32_small by lia.
      rewrite IH by (rewrite ?Nat2Z.inj_succ; lia).
      rewrite ?Nat2Z.inj_succ. unfold store.
      destruct (Z.leb_spec (i + 1) j),
        (Z.ltb_spec j (i + 1 + Z.succ (Z.of_nat count))),
        (Z.leb_spec i j),
        (Z.ltb_spec j (i + Z.succ (Z.succ (Z.of_nat count)))),
        (Z.eqb_spec j i); cbn; try reflexivity; lia.
Qed.

(** What a new graph holds: zero edges counted, [false] at the first
    [num_vertices] offsets, and at every other offset what the buffer held
    before. *)
Lemma new_matrix (fresh : Z -> bool) (n j : Z) :
  0 <= n < 2 ^ 32 ->
  matrix (new fresh n) j = if (0 <=? j) && (j <? n) then false else fresh j.
Proof.
  intros Hn. unfold new. cbn [matrix].
  rewrite initialize_spec by (rewrite ?Z2Nat.id; lia).
  rewrite Z2Nat.id by lia. reflexivity.
Qed.

Lemma new_num_edges (fresh : Z -> bool) (n : Z) : get_num_edges (new fresh n) = 0.
Proof. reflexivity. Qed.

Lemma new_num_vertices (fresh : Z -> bool) (n : Z) : get_num_vertices (new fresh n) = n.
Proof. reflexivity. Qed.

(** The requested length is the square modulo 2^32: it is 0 for 65536
    vertices. *)
Lemma allocated_wraps : allocated 65535 = 65535 * 65535 /\ allocated 65536 = 0.
Proof. split; reflexivity. Qed.

(** The offsets of two vertices below [n] stay below [n * n]: no wrap-around
    as long as the square fits in 32 bits. *)
Lemma index_in_range (g : t) (from to : Z) :
  num_vertices g * num_vertices g <= 2 ^ 32 ->
  0 <= from < num_vertices g -> 0 <= to < num_vertices g ->
  index g from to = from + to * num_vertices g.
Proof.
  intros Hsq Hf Ht. unfold index. apply wrap32_small. nia.
Qed.

(** The first row of a new graph, [to = 0], is cleared. *)
Lemma new_first_row (fresh : Z -> bool) (n from : Z) :
  0 <= n < 2 ^ 32 -> 0 <= from < n ->
  fst (has_edge from 0 (new fresh n)) = false.
Proof.
  intros Hn Hf. unfold has_edge. cbn [fst].
  unfold index. cbn [num_vertices new]. rewrite Z.mul_0_l, Z.add_0_r.
  rewrite wrap32_small by lia. rewrite new_matrix by lia.
  destruct (Z.leb_spec 0 from), (Z.ltb_spec from n); cbn; try reflexivity; lia.
Qed.

(** Every other row, [to >= 1], still holds what the buffer held before. *)
Lemma new_other_rows (fresh : Z -> bool) (n from to : Z) :
  0 <= n -> n * n <= 2 ^ 32 -> 0 <= from < n -> 1 <= to < n ->
  fst (has_edge from to (new fresh n)) = fresh (from + to * n).
Proof.
  intros Hn Hsq Hf Ht. unfold has_edge. cbn [fst].
  rewrite index_in_range; cbn [num_vertices new]; try lia.
  rewrite new_matrix by nia.
  destruct (Z.leb_spec 0 (from + to * n)), (Z.ltb_spec (from + to * n) n);
    cbn; try reflexivity; nia.
Qed.

End Store.

(** C7: [add_edge(from, to)] writes [true] at the one offset
    [from + to * num_vertices] and leaves every other entry as it was; it adds
    one to the edge counter whatever the entry held before, so that a second
    insertion of the same pair counts again; [has_edge(from, to)] returns the
    entry at that offset and hands the graph back unchanged.  The offset and
    the counter are 32-bit unsigned values, equal to the plain sums as long as
    those fit. *)
Theorem add_edge_writes_one_entry_and_always_counts (g : Graph.t) (from to : Z) :
  let offset := Graph.index g from to in
  let g' := snd (Graph.add_edge from to g) in
  (forall j, Graph.matrix g' j = if j =? offset then true else Graph.matrix g j) /\
  Graph.get_num_edges g' = wrap32 (Graph.get_num_edges g + 1) /\
  Graph.get_num_edges (snd (Graph.add_edge from to g')) =
    wrap32 (wrap32 (Graph.get_num_edges g + 1) + 1) /\
  Graph.get_num_vertices g' = Graph.get_num_vertices g /\
  Graph.has_edge from to g = (Graph.matrix g offset, g) /\
  fst (Graph.has_edge from to g') = true /\
  (0 <= Graph.get_num_edges g -> Graph.get_num_edges g + 1 < 2 ^ 32 ->
   Graph.get_num_edges g' = Graph.get_num_edges g + 1) /\
  (0 <= from -> 0 <= to -> 0 <= Graph.get_num_vertices g ->
   from + to * Graph.get_num_vertices g < 2 ^ 32 ->
   offset = from + to * Graph.get_num_vertices g).
Proof.
  cbv zeta. unfold Graph.add_edge, Graph.has_edge, Graph.get_num_edges,
    Graph.get_num_vertices. cbn [snd fst Graph.matrix Graph.num_edges Graph.num_vertices].
  repeat split.
  - unfold Graph.index. cbn [Graph.num_vertices]. apply store_same.
  - intros H0 H1. apply wrap32_small. lia.
  - intros Hf Ht Hn Hlt. unfold Graph.index. apply wrap32_small. nia.
Qed.

Lemma add_edge_writes_one_entry_and_always_counts_witness :
  0 <= Graph.get_num_edges (Graph.new stale 3) /\
  Graph.get_num_edges (Graph.new stale 3) + 1 < 2 ^ 32 /\
  Graph.get_num_edges (snd (Graph.add_edge 0 2 (Graph.new stale 3))) =
    Graph.get_num_edges (Graph.new stale 3) + 1.
Proof.
  split; [cbn; lia|]. split; [reflexivity|].
  apply (add_edge_writes_one_entry_and_always_counts (Graph.new stale 3) 0 2);
    [cbn; lia | reflexivity].
Defined.

(** C3, at three vertices over a buffer with a stale byte: the counter is 0
    and the row [to = 0] is cleared, but [has_edge(0, 2)] reads offset 6,
    which the constructor's loop never reached, and answers true. *)
Theorem new_graph_keeps_stale_entries :
  Graph.get_num_edges (Graph.new stale 3) = 0 /\
  (forall from, 0 <= from < 3 -> fst (Graph.has_edge from 0 (Graph.new stale 3)) = false) /\
  Graph.index (Graph.new stale 3) 0 2 = 6 /\
  6 < Graph.allocated 3 /\
  fst (Graph.has_edge 0 2 (Graph.new stale 3)) = true.
Proof.
  split; [reflexivity|]. split.
  - intros from Hf. apply new_first_row; [rewrite two_32|]; lia.
  - repeat split.
Qed.

(** ** Walks *)

Section Walks.

Variable E : Z -> Z -> Prop.
Hypothesis E_increasing : forall u v, E u v -> u < v.

(** Along edges that go from a smaller to a larger index, a walk ends above
    where it starts. *)
Lemma walk_increasing (bound u v : Z) : walk E bound u v -> u < v.
Proof.
  induction 1 as [u v _ _ Huv | u v w _ Huv _ IH].
  - now apply E_increasing.
  - apply E_increasing in Huv. lia.
Qed.

Lemma increasing_acyclic (bound : Z) : ~ cycle_within E bound.
Proof.
  intros [v Hv]. apply walk_increasing in Hv. lia.
Qed.

End Walks.

(** ** One iteration of the sampling loop *)

Lemma wrap32_succ (z : Z) : wrap32 (wrap32 z + 1) = wrap32 (z + 1).
Proof. unfold wrap32. apply Z.add_mod_idemp_l. rewrite two_32. lia. Qed.

(** An accepted attempt is one call of [add_edge], one more edge counted by
    the loop, and a retry counter back at 0. *)
Lemma attempt_accepted (a : Argv) (s s' : Loop) (f t : Z) :
  attempt a s = Accepted f t s' ->
  graph s' = snd (Graph.add_edge f t (graph s)) /\
  current_additional_edges s' = wrap32 (current_additional_edges s + 1) /\
  current_iterations s' = 0.
Proof.
  intros H. open_attempt H; inversion H; subst; cbn; auto.
Qed.

(** A rejected attempt leaves the graph and the loop's count alone and adds
    one to the 8-bit retry counter. *)
Lemma attempt_rejected (a : Argv) (s s' : Loop) :
  attempt a s = Rejected s' ->
  graph s' = graph s /\
  current_additional_edges s' = current_additional_edges s /\
  current_iterations s' = wrap8 (current_iterations s + 1).
Proof.
  intros H. open_attempt H; inversion H; subst; cbn; auto.
Qed.

(** The loop gives up only from a state whose retry counter is above 256. *)
Lemma attempt_gives_up (a : Argv) (s : Loop) :
  attempt a s = TooManyIterations -> MAX_ITERATIONS < current_iterations s.
Proof.
  intros H. open_attempt H; lia.
Qed.

(** Without cycles, an accepted pair goes from a smaller index to a larger
    one, both of them vertices. *)
Lemma attempt_accepted_acyclic (a : Argv) (s s' : Loop) (f t : Z) :
  has_cicles a = false ->
  attempt a s = Accepted f t s' ->
  0 <= f < t /\ t < Graph.get_num_vertices (graph s).
Proof.
  intros Hc H. unfold attempt in H. rewrite Hc in H. open_attempt H.
  inversion H; subst. clear H.
  match goal with
  | Hpos : (?x mod ?n >? 0) = true |- _ =>
      apply Z.gtb_lt in Hpos;
      assert (Hn : 0 < n)
        by (destruct (Z.lt_trichotomy n 0) as [Hlt|[Heq|Hgt]];
            [ pose proof (Z.mod_neg_bound x n Hlt); lia
            | match goal with Hz : (n =? 0) = false |- _ =>
                apply Z.eqb_neq in Hz; lia end
            | exact Hgt ]);
      pose proof (Z.mod_pos_bound x n Hn) as Ht
  end.
  match goal with
  | |- 0 <= ?r mod ?m < ?m /\ _ =>
      pose proof (Z.mod_pos_bound r m ltac:(lia)) as Hf
  end.
  lia.
Qed.

(** ** Replaying calls of [add_edge] *)

Lemma replay_snoc (g : Graph.t) (calls : list (Z * Z)) (f t : Z) :
  replay g (calls ++ [(f, t)]) = snd (Graph.add_edge f t (replay g calls)).
Proof. unfold replay. rewrite fold_left_app. reflexivity. Qed.

Lemma replay_cons (g : Graph.t) (calls : list (Z * Z)) (f t : Z) :
  replay g ((f, t) :: calls) = replay (snd (Graph.add_edge f t g)) calls.
Proof. reflexivity. Qed.

Lemma replay_num_vertices (calls : list (Z * Z)) :
  forall g, Graph.get_num_vertices (replay g calls) = Graph.get_num_vertices g.
Proof.
  induction calls as [|[f t] calls IH]; intros g; [reflexivity|].
  rewrite replay_cons, IH. reflexivity.
Qed.

(** Every replayed call is counted, whether or not its entry was set
    before. *)
Lemma replay_num_edges (calls : list (Z * Z)) :
  forall g k,
    Graph.get_num_edges g = wrap32 k ->
    Graph.get_num_edges (replay g calls) = wrap32 (k + Z.of_nat (List.length calls)).
Proof.
  induction calls as [|[f t] calls IH]; intros g k Hk.
  - cbn [replay fold_left List.length]. rewrite Hk. f_equal. lia.
  - rewrite replay_cons. rewrite (IH _ (k + 1)).
    + f_equal. cbn [List.length]. lia.
    + unfold Graph.add_edge, Graph.get_num_edges in *. cbn [snd Graph.num_edges].
      rewrite Hk. apply wrap32_succ.
Qed.

(** The chain loop is the replay of the pairs it returns, one pair for each
    iteration. *)
Lemma seed_chain_replay (count : nat) :
  forall i g g' chain,
    seed_chain count i g = (g', chain) ->
    g' = replay g chain /\ List.length chain = count.
Proof.
  induction count as [|count IH]; intros i g g' chain H; cbn [seed_chain] in H.
  - inversion H; subst. split; reflexivity.
  - destruct (seed_chain count (i + 1) _) as [g2 rest] eqn:Hrest.
    inversion H; subst. apply IH in Hrest as [-> <-].
    split; reflexivity.
Qed.

(** The pairs of the chain loop, numbered from the value [i] of the loop
    variable: the [k]-th one is [(i + k - 1, i + k)]. *)
Lemma seed_chain_pairs (count : nat) :
  forall i g,
    1 <= i -> i + Z.of_nat count <= 2 ^ 32 ->
    snd (seed_chain count i g) =
      map (fun k => (i + Z.of_nat k - 1, i + Z.of_nat k)) (seq 0 count).
Proof.
  induction count as [|count IH]; intros i g Hi Hb; cbn [seed_chain].
  - reflexivity.
  - destruct (seed_chain count (i + 1) _) as [g2 rest] eqn:Hrest.
    cbn [snd seq map]. f_equal.
    + rewrite !wrap32_small by lia. f_equal; lia.
    + change rest with (snd (g2, rest)). rewrite <- Hrest.
      rewrite IH by lia. rewrite <- seq_shift, map_map.
      apply map_ext. intros k. f_equal; lia.
Qed.

(** ** The loop as a whole *)

Section WhileRule.

Variable a : Argv.
Variable P : Loop -> list (Z * Z) -> Prop.

Hypothesis P_accepted :
  forall s ins f t s',
    P s ins -> current_additional_edges s < additional_edges a ->
    attempt a s = Accepted f t s' -> P s' (ins ++ [(f, t)]).

Hypothesis P_rejected :
  forall s ins s',
    P s ins -> current_additional_edges s < additional_edges a ->
    attempt a s = Rejected s' -> P s' ins.

(** A property kept by every iteration holds when the loop is left, together
    with the negation of the loop condition. *)
Lemma sampling_finished (fuel : nat) :
  forall s ins s' ins',
    P s ins -> sampling fuel a s ins = Finished s' ins' ->
    P s' ins' /\ additional_edges a <= current_additional_edges s'.
Proof.
  induction fuel as [|fuel IH]; intros s ins s' ins' HP H; cbn [sampling] in H;
    destruct (Z.ltb_spec (current_additional_edges s) (additional_edges a)) as [Hlt|Hge];
    try discriminate H.
  - inversion H; subst. split; [assumption | lia].
  - destruct (attempt a s) as [f t s1 | s1 | |] eqn:Hs; try discriminate H.
    + eapply IH; [|exact H]. eapply P_accepted; eauto.
    + eapply IH; [|exact H]. eapply P_rejected; eauto.
  - inversion H; subst. split; [assumption | lia].
Qed.

End WhileRule.

Lemma additional_edges_range (a : Argv) : 0 <= additional_edges a < 2 ^ 32.
Proof. apply wrap32_range. Qed.

Lemma sampling_counted (a : Argv) (g0 : Graph.t) (base : Z) (fuel : nat) :
  forall s ins s' ins',
    counted a g0 base s ins ->
    sampling fuel a s ins = Finished s' ins' ->
    current_additional_edges s' = additional_edges a /\
    Z.of_nat (List.length ins') = base + additional_edges a /\
    graph s' = replay g0 ins'.
Proof.
  intros s ins s' ins' Hc H.
  apply (sampling_finished a (counted a g0 base)) in H; [ | | | exact Hc].
  - destruct H as [(Hr & Hl & Hg) Hge].
    assert (current_additional_edges s' = additional_edges a) as Heq by lia.
    rewrite <- Heq. auto.
  - clear. intros s ins f t s' (Hr & Hl & Hg) Hlt Hs.
    apply attempt_accepted in Hs as (Hg' & Hc' & _).
    pose proof (additional_edges_range a) as Ha.
    rewrite wrap32_small in Hc' by lia.
    repeat split; try lia.
    + rewrite length_app, Nat2Z.inj_add. cbn [List.length]. lia.
    + rewrite replay_snoc, Hg', Hg. reflexivity.
  - clear. intros s ins s' (Hr & Hl & Hg) Hlt Hs.
    apply attempt_rejected in Hs as (Hg' & Hc' & _).
    repeat split; try lia. congruence.
Qed.

(** ** Generation *)

Lemma num_vertices_range (a : Argv) : 0 <= num_vertices a < 2 ^ 32.
Proof. apply wrap32_range. Qed.

Lemma min_graph_depth_range (a : Argv) : 0 <= min_graph_depth a < 2 ^ 32.
Proof. apply wrap32_range. Qed.

(** A successful generation passed both checks, seeded the chain and then
    left the sampling loop through its condition. *)
Lemma generate_inv (a : Argv) (fresh : Z -> bool) (seed : nat -> N) (fuel : nat)
      (g : Graph.t) (ins : list (Z * Z)) :
  generate a fresh seed fuel = Generated g ins ->
  validate a = None /\
  exists s,
    sampling fuel a
      (enter_loop
         (fst (seed_chain (chain_length (min_graph_depth a)) 1
                 (Graph.new fresh (num_vertices a))))
         (seeded seed))
      (snd (seed_chain (chain_length (min_graph_depth a)) 1
              (Graph.new fresh (num_vertices a))))
    = Finished s ins /\ g = graph s.
Proof.
  unfold generate. intros H.
  destruct (validate a) as [message|]; [discriminate H|].
  split; [reflexivity|].
  destruct (seed_chain _ 1 _) as [g1 chain]. cbn [fst snd].
  destruct (sampling fuel a _ chain) as [s ins1| | |] eqn:Hs; try discriminate H.
  inversion H; subst. exists s. split; reflexivity.
Qed.

Lemma validate_passed (a : Argv) :
  validate a = None ->
  min_graph_depth a <= num_vertices a /\
  (has_cicles a = true -> 1 <= additional_edges a).
Proof.
  unfold validate. intros H.
  destruct (Z.gtb_spec (min_graph_depth a) (num_vertices a)); [discriminate H|].
  split; [lia|]. intros Hc. rewrite Hc in H. cbn [andb] in H.
  destruct (Z.ltb_spec (additional_edges a) 1); [discriminate H | lia].
Qed.

(** What a successful generation produced: a graph over [num_vertices]
    vertices that is the replay, on the new graph, of the [add_edge] calls in
    [ins]; there is one call for each iteration of the chain loop and one for
    each additional edge, and the edge counter is their number as a 32-bit
    unsigned value. *)
Lemma generate_counts (a : Argv) (fresh : Z -> bool) (seed : nat -> N) (fuel : nat)
      (g : Graph.t) (ins : list (Z * Z)) :
  generate a fresh seed fuel = Generated g ins ->
  g = replay (Graph.new fresh (num_vertices a)) ins /\
  Graph.get_num_vertices g = num_vertices a /\
  Z.of_nat (List.length ins) =
    Z.of_nat (chain_length (min_graph_depth a)) + additional_edges a /\
  Graph.get_num_edges g = wrap32 (Z.of_nat (List.length ins)).
Proof.
  intros H. apply generate_inv in H as (_ & s & Hs & ->).
  destruct (seed_chain _ 1 _) as [g1 chain] eqn:Hchain. cbn [fst snd] in Hs.
  apply seed_chain_replay in Hchain as [Hg1 Hlen].
  apply (sampling_counted a (Graph.new fresh (num_vertices a))
           (Z.of_nat (chain_length (min_graph_depth a)))) in Hs.
  - destruct Hs as (_ & Hl & Hg). rewrite Hg.
    split; [reflexivity|]. split; [apply replay_num_vertices|].
    split; [exact Hl|].
    rewrite (replay_num_edges ins _ 0); [f_equal; lia | reflexivity].
  - unfold counted, enter_loop. cbn.
    pose proof (additional_edges_range a). repeat split; try lia; assumption.
Qed.

(** C4, as stated, fails when [min_graph_depth] is 0: the arguments
    [5 0 0 false false] pass both checks and generation succeeds with five
    vertices and no edge, while [min_graph_depth - 1 + additional_edges] is
    -1, or 4294967295 when taken as a 32-bit unsigned value. *)
Lemma edge_count_formula_fails_without_depth :
  validate no_depth = None /\
  exists g ins,
    generate no_depth zeroed (constant 0) 0 = Generated g ins /\
    Graph.get_num_vertices g = num_vertices no_depth /\
    Graph.get_num_edges g = 0 /\
    Graph.get_num_edges g <>
      min_graph_depth no_depth - 1 + additional_edges no_depth /\
    Graph.get_num_edges g <>
      wrap32 (min_graph_depth no_depth - 1 + additional_edges no_depth).
Proof.
  split; [reflexivity|].
  eexists. eexists. split; [vm_compute; reflexivity|].
  split; [reflexivity|]. split; [reflexivity|].
  split; vm_compute; discriminate.
Qed.

(** C4, amended: when generation succeeds, the graph has [num_vertices]
    vertices, exactly [max (min_graph_depth - 1) 0 + additional_edges] calls
    of [add_edge] were made, and the edge counter holds that number as a
    32-bit unsigned value, which is the number itself whenever it is below
    2^32; for [min_graph_depth >= 1] the number is
    [min_graph_depth - 1 + additional_edges]. *)
Theorem edge_count_of_generated_graph (a : Argv) (fresh : Z -> bool)
        (seed : nat -> N) (fuel : nat) (g : Graph.t) (ins : list (Z * Z)) :
  generate a fresh seed fuel = Generated g ins ->
  Graph.get_num_vertices g = num_vertices a /\
  Z.of_nat (List.length ins) =
    Z.max (min_graph_depth a - 1) 0 + additional_edges a /\
  Graph.get_num_edges g =
    wrap32 (Z.max (min_graph_depth a - 1) 0 + additional_edges a) /\
  (Z.max (min_graph_depth a - 1) 0 + additional_edges a < 2 ^ 32 ->
   Graph.get_num_edges g = Z.max (min_graph_depth a - 1) 0 + additional_edges a) /\
  (1 <= min_graph_depth a ->
   min_graph_depth a - 1 + additional_edges a < 2 ^ 32 ->
   Graph.get_num_edges g = min_graph_depth a - 1 + additional_edges a).
Proof.
  intros H. apply generate_counts in H as (_ & Hn & Hl & He).
  unfold chain_length in Hl.
  replace (Z.of_nat (Z.to_nat (min_graph_depth a - 1)))
    with (Z.max (min_graph_depth a - 1) 0) in Hl by lia.
  rewrite Hl in He. pose proof (additional_edges_range a) as Ha.
  repeat split; try assumption.
  - intros Hlt. rewrite He. apply wrap32_small. lia.
  - intros Hd Hlt. rewrite He. rewrite Z.max_l by lia. apply wrap32_small. lia.
Qed.

Lemma edge_count_of_generated_graph_witness :
  exists g ins,
    generate shuffled_dag zeroed (constant 3) 1 = Generated g ins /\
    Graph.get_num_vertices g = 4 /\
    Z.of_nat (List.length ins) = 3 /\
    Graph.get_num_edges g = 3.
Proof.
  eexists. eexists. split; [vm_compute; reflexivity|].
  destruct (edge_count_of_generated_graph shuffled_dag zeroed (constant 3) 1
              _ _ ltac:(vm_compute; reflexivity))
    as (Hn & Hl & He & _).
  exact (conj Hn (conj Hl He)).
Defined.

(** C10: with [min_graph_depth = 0] the depth check lets every
    [num_vertices] through, the chain loop makes no call of [add_edge] and
    returns the new graph as it is, and a generation that succeeds made
    exactly [additional_edges] calls and ends with the edge counter at
    [additional_edges]. *)
Theorem zero_depth_counts_only_additional_edges (a : Argv) (fresh : Z -> bool)
        (seed : nat -> N) (fuel : nat) :
  min_graph_depth a = 0 ->
  (min_graph_depth a >? num_vertices a) = false /\
  validate a <> Some depth_text /\
  seed_chain (chain_length (min_graph_depth a)) 1 (Graph.new fresh (num_vertices a))
    = (Graph.new fresh (num_vertices a), []) /\
  forall g ins,
    generate a fresh seed fuel = Generated g ins ->
    Z.of_nat (List.length ins) = additional_edges a /\
    Graph.get_num_edges g = additional_edges a.
Proof.
  intros Hd. pose proof (num_vertices_range a) as Hn.
  assert (Hchk : (min_graph_depth a >? num_vertices a) = false).
  { rewrite Hd. destruct (Z.gtb_spec 0 (num_vertices a)); [lia | reflexivity]. }
  split; [exact Hchk|]. split.
  - unfold validate. rewrite Hchk.
    destruct (has_cicles a && (additional_edges a <? 1)); discriminate.
  - split; [rewrite Hd; reflexivity|].
    intros g ins H. apply generate_counts in H as (_ & _ & Hl & He).
    rewrite Hd in Hl. change (Z.of_nat (chain_length 0)) with 0 in Hl.
    rewrite Hl in He. rewrite Z.add_0_l in *. split; [exact Hl|].
    rewrite He. apply wrap32_small. apply additional_edges_range.
Qed.

Lemma zero_depth_counts_only_additional_edges_witness :
  min_graph_depth no_depth_one_edge = 0 /\
  exists g ins,
    generate no_depth_one_edge zeroed (constant 1) 1 = Generated g ins /\
    Z.of_nat (List.length ins) = 1 /\
    Graph.get_num_edges g = 1.
Proof.
  split; [reflexivity|].
  eexists. eexists. split; [vm_compute; reflexivity|].
  destruct (zero_depth_counts_only_additional_edges no_depth_one_edge zeroed
              (constant 1) 1 eq_refl) as (_ & _ & _ & H).
  apply H. vm_compute; reflexivity.
Defined.

(** The pairs of the chain loop go from an index to the next one, and stay
    among the first [min_graph_depth] vertices. *)
Lemma chain_pairs_increase (a : Argv) (g : Graph.t) :
  Forall (fun e => 0 <= fst e < snd e /\ snd e < min_graph_depth a)
    (snd (seed_chain (chain_length (min_graph_depth a)) 1 g)).
Proof.
  pose proof (min_graph_depth_range a) as Hd. unfold chain_length.
  rewrite seed_chain_pairs by lia.
  apply Forall_forall. intros [f t] Hin.
  apply in_map_iff in Hin as (k & Hk & Hin). cbv beta in Hk.
  pose proof (f_equal fst Hk) as Hf. pose proof (f_equal snd Hk) as Ht.
  apply in_seq in Hin. cbv [fst snd] in *. lia.
Qed.

(** Without cycles, every pair passed to [add_edge] goes upwards and stays
    among the vertices. *)
Lemma acyclic_pairs_increase (a : Argv) (fresh : Z -> bool) (seed : nat -> N)
      (fuel : nat) (g : Graph.t) (ins : list (Z * Z)) :
  has_cicles a = false ->
  generate a fresh seed fuel = Generated g ins ->
  Forall (fun e => 0 <= fst e < snd e /\ snd e < num_vertices a) ins.
Proof.
  intros Hc H.
  apply generate_inv in H as (Hv & s & Hs & _).
  apply validate_passed in Hv as [Hdn _].
  apply (sampling_finished a
           (fun s ins =>
              Graph.get_num_vertices (graph s) = num_vertices a /\
              Forall (fun e => 0 <= fst e < snd e /\ snd e < num_vertices a) ins))
    in Hs.
  - apply Hs.
  - intros s0 ins0 f t s1 [Hn HF] _ Hacc.
    pose proof (attempt_accepted_acyclic _ _ _ _ _ Hc Hacc) as Hft.
    apply attempt_accepted in Hacc as (Hg1 & _).
    split.
    + rewrite Hg1. exact Hn.
    + apply Forall_app. split; [exact HF|].
      constructor; [cbn [fst snd]; lia | constructor].
  - intros s0 ins0 s1 [Hn HF] _ Hrej.
    apply attempt_rejected in Hrej as (Hg1 & _).
    split; [rewrite Hg1; exact Hn | exact HF].
  - split.
    + destruct (seed_chain _ 1 _) as [g1 chain] eqn:Hchain. cbn [fst enter_loop graph].
      apply seed_chain_replay in Hchain as [-> _].
      apply replay_num_vertices.
    + eapply Forall_impl; [|apply chain_pairs_increase].
      cbn beta. intros e He. lia.
Qed.

(** Without cycles, every pair ever passed to [add_edge], by the chain loop
    as by the sampling loop, goes from a vertex to a vertex of larger index;
    the graph is the new graph with exactly these insertions replayed on it,
    and the inserted edges contain no directed cycle.  This is about the
    insertions only: what [has_edge] answers also depends on the buffer. *)
Theorem acyclic_insertions_increase (a : Argv) (fresh : Z -> bool) (seed : nat -> N)
        (fuel : nat) (g : Graph.t) (ins : list (Z * Z)) :
  has_cicles a = false ->
  generate a fresh seed fuel = Generated g ins ->
  g = replay (Graph.new fresh (num_vertices a)) ins /\
  Forall (fun e => 0 <= fst e < snd e /\ snd e < num_vertices a) ins /\
  ~ cycle_within (inserted_edge ins) (num_vertices a).
Proof.
  intros Hc H.
  pose proof (generate_counts _ _ _ _ _ _ H) as (Hg & _).
  pose proof (acyclic_pairs_increase _ _ _ _ _ _ Hc H) as Hall.
  split; [exact Hg|]. split; [exact Hall|].
  apply increasing_acyclic. intros u v Huv.
  unfold inserted_edge in Huv. rewrite Forall_forall in Hall.
  apply Hall in Huv. cbn [fst snd] in Huv. lia.
Qed.

Lemma acyclic_insertions_increase_witness :
  has_cicles shuffled_dag = false /\
  exists g ins,
    generate shuffled_dag zeroed (constant 3) 1 = Generated g ins /\
    ins = [(0, 1); (1, 2); (0, 3)] /\
    Forall (fun e => 0 <= fst e < snd e /\ snd e < 4) ins.
Proof.
  split; [reflexivity|].
  eexists. eexists. split; [vm_compute; reflexivity|].
  split; [reflexivity|].
  destruct (acyclic_insertions_increase shuffled_dag zeroed (constant 3) 1 _ _
              eq_refl ltac:(vm_compute; reflexivity)) as (_ & H & _).
  exact H.
Defined.

(** ** The retry counter *)

(** An 8-bit counter never compares above 256, so an attempt that adds no
    edge always goes on to the next iteration. *)
Lemma reject_continues (s : Loop) (g : Graph.t) (r : Rng) :
  0 <= current_iterations s < 2 ^ 8 ->
  reject s g r =
    Rejected {| graph := g; rng := r;
                current_additional_edges := current_additional_edges s;
                current_iterations := wrap8 (current_iterations s + 1) |}.
Proof.
  intros H. unfold reject, MAX_ITERATIONS. rewrite two_8 in H.
  destruct (Z.gtb_spec (current_iterations s) 256); [lia | reflexivity].
Qed.

(** After 255 the counter is back at 0. *)
Lemma retry_counter_wraps : wrap8 (255 + 1) = 0.
Proof. reflexivity. Qed.

Lemma sampling_never_aborts (a : Argv) (fuel : nat) :
  forall s ins,
    0 <= current_iterations s < 2 ^ 8 ->
    sampling fuel a s ins <> Aborted.
Proof.
  induction fuel as [|fuel IH]; intros s ins Hit; cbn [sampling];
    destruct (current_additional_edges s <? additional_edges a); try discriminate.
  destruct (attempt a s) as [f t s1 | s1 | |] eqn:Hs; try discriminate.
  - apply IH. apply attempt_accepted in Hs as (_ & _ & ->). rewrite two_8. lia.
  - apply IH. apply attempt_rejected in Hs as (_ & _ & ->). apply wrap8_range.
  - apply attempt_gives_up in Hs. unfold MAX_ITERATIONS in Hs.
    rewrite two_8 in Hit. lia.
Qed.

Lemma generate_never_exhausted (a : Argv) (fresh : Z -> bool) (seed : nat -> N)
      (fuel : nat) :
  generate a fresh seed fuel <> Exhausted.
Proof.
  unfold generate. destruct (validate a); [discriminate|].
  destruct (seed_chain _ 1 _) as [g1 chain].
  destruct (sampling fuel a _ chain) eqn:Hs; try discriminate.
  exfalso. revert Hs. apply sampling_never_aborts.
  cbn [enter_loop current_iterations]. rewrite two_8. lia.
Qed.

(** On a single vertex every draw of [rand_to] is 0, so without cycles no
    attempt is ever accepted, whatever the engine returns. *)
Lemma single_vertex_attempt (s : Loop) :
  Graph.get_num_vertices (graph s) = 1 ->
  0 <= current_iterations s < 2 ^ 8 ->
  exists s',
    attempt single_vertex s = Rejected s' /\
    graph s' = graph s /\
    current_additional_edges s' = current_additional_edges s /\
    0 <= current_iterations s' < 2 ^ 8.
Proof.
  intros Hn Hit. unfold attempt, next.
  rewrite Hn. change (1 =? 0) with false. cbv iota.
  change (has_cicles single_vertex) with false. cbv iota.
  rewrite Z.mod_1_r. change (0 >? 0) with false. cbv iota.
  rewrite reject_continues by exact Hit.
  eexists. split; [reflexivity|]. cbn. repeat split; try apply wrap8_range.
Qed.

Lemma single_vertex_sampling (fuel : nat) :
  forall s ins,
    Graph.get_num_vertices (graph s) = 1 ->
    current_additional_edges s = 0 ->
    0 <= current_iterations s < 2 ^ 8 ->
    sampling fuel single_vertex s ins = Running.
Proof.
  induction fuel as [|fuel IH]; intros s ins Hn Hc Hit; cbn [sampling];
    rewrite Hc; change (0 <? additional_edges single_vertex) with true; cbv iota.
  - reflexivity.
  - destruct (single_vertex_attempt s Hn Hit) as (s' & -> & Hg & Hc' & Hit').
    apply IH; congruence.
Qed.

(** C2, on the arguments [1 1 1 false false]: whatever the buffer and the
    engines hold and however many iterations are allowed, the sampling loop
    is still running; and on no arguments at all does generation end through
    the retry bound, because the 8-bit counter returns to 0 after 255 and is
    never above 256. *)
Theorem retry_bound_never_stops_the_loop :
  (forall fresh seed rand fuel, main 7 single_vertex fresh seed rand fuel = Loops) /\
  (forall a fresh seed fuel, generate a fresh seed fuel <> Exhausted) /\
  wrap8 (255 + 1) = 0.
Proof.
  split; [|split; [exact generate_never_exhausted | reflexivity]].
  intros fresh seed rand fuel. unfold main. cbn [Z.eqb Pos.eqb negb].
  unfold generate. change (validate single_vertex) with (@None string). cbv iota.
  change (chain_length (min_graph_depth single_vertex)) with O.
  cbn [seed_chain]. rewrite single_vertex_sampling; try reflexivity.
  cbn [enter_loop current_iterations]. rewrite two_8. lia.
Qed.

(** ** Error exits *)

(** The retry bound, were the counter ever above it, ends [main] with
    [return 1] from inside the loop. *)
Lemma reject_gives_up (s : Loop) (g : Graph.t) (r : Rng) :
  MAX_ITERATIONS < current_iterations s -> reject s g r = TooManyIterations.
Proof.
  intros H. unfold reject.
  destruct (Z.gtb_spec (current_iterations s) MAX_ITERATIONS); [reflexivity | lia].
Qed.

Lemma validate_depth (a : Argv) :
  num_vertices a < min_graph_depth a -> validate a = Some depth_text.
Proof.
  intros H. unfold validate.
  destruct (Z.gtb_spec (min_graph_depth a) (num_vertices a)); [reflexivity | lia].
Qed.

Lemma validate_cicles (a : Argv) :
  min_graph_depth a <= num_vertices a -> has_cicles a = true ->
  additional_edges a < 1 -> validate a = Some cicles_text.
Proof.
  intros Hd Hc Ha. unfold validate.
  destruct (Z.gtb_spec (min_graph_depth a) (num_vertices a)); [lia|].
  rewrite Hc. destruct (Z.ltb_spec (additional_edges a) 1); [reflexivity | lia].
Qed.

Lemma main_invalid (a : Argv) (fresh : Z -> bool) (seed rand : nat -> N)
      (fuel : nat) (message : string) :
  validate a = Some message ->
  main 7 a fresh seed rand fuel = Exit 1 message None.
Proof.
  intros H. unfold main, generate. rewrite H. reflexivity.
Qed.

(** C9: a run that ends with code 1 never opened the output path: this is so
    when [min_graph_depth] exceeds [num_vertices], when cycles are asked for
    with no additional edge, and on every other way there is to exit with
    code 1, the exit from the sampling loop included. *)
Theorem error_exits_open_no_file (argc : Z) (a : Argv) (fresh : Z -> bool)
        (seed rand : nat -> N) (fuel : nat) :
  (num_vertices a < min_graph_depth a ->
   main 7 a fresh seed rand fuel = Exit 1 depth_text None) /\
  (min_graph_depth a <= num_vertices a -> has_cicles a = true ->
   additional_edges a < 1 ->
   main 7 a fresh seed rand fuel = Exit 1 cicles_text None) /\
  (forall printed file,
     main argc a fresh seed rand fuel = Exit 1 printed file -> file = None).
Proof.
  split; [|split].
  - intros H. apply main_invalid, validate_depth, H.
  - intros Hd Hc Ha. apply main_invalid, validate_cicles; assumption.
  - intros printed file. unfold main.
    destruct (negb (argc =? 7)); [intros H; inversion H; reflexivity|].
    destruct (generate a fresh seed fuel); intros H; try discriminate H;
      inversion H; reflexivity.
Qed.

Lemma error_exits_open_no_file_witness :
  num_vertices too_deep < min_graph_depth too_deep /\
  main 7 too_deep zeroed (constant 0) (constant 0) 0 = Exit 1 depth_text None.
Proof.
  split; [reflexivity|].
  apply (error_exits_open_no_file 7 too_deep zeroed (constant 0) (constant 0) 0).
  reflexivity.
Defined.

(** ** Labels *)










(** ** Writing *)




Lemma identity_labels_NoDup (n : nat) : NoDup (identity_labels n).
Proof.
  unfold identity_labels. apply Finite.Injective_map_NoDup.
  - intros x y H. lia.
  - apply seq_NoDup.
Qed.

Lemma identity_labels_In (n : nat) (x : Z) :
  In x (identity_labels n) <-> 0 <= x < Z.of_nat n.
Proof.
  unfold identity_labels. rewrite in_map_iff. split.
  - intros (k & <- & Hk). apply in_seq in Hk. lia.
  - intros Hx. exists (Z.to_nat x). split; [lia|]. apply in_seq. lia.
Qed.

(** ** The forced first edge *)

(** With cycles, the first additional edge joins two different vertices among
    the first [min_graph_depth] ones. *)
Lemma attempt_first_cyclic (a : Argv) (s s' : Loop) (f t : Z) :
  has_cicles a = true ->
  current_additional_edges s = 0 ->
  attempt a s = Accepted f t s' ->
  0 <= f < min_graph_depth a /\ 0 <= t < min_graph_depth a /\ f <> t.
Proof.
  intros Hc H0 H. unfold attempt in H. rewrite Hc, H0 in H.
  change (0 =? 0) with true in H. open_attempt H.
  inversion H; subst. clear H.
  pose proof (min_graph_depth_range a) as Hd.
  match goal with Hz : (min_graph_depth a =? 0) = false |- _ =>
    apply Z.eqb_neq in Hz end.
  match goal with Hne : negb (?x =? ?y) = true |- _ =>
    apply negb_true_iff, Z.eqb_neq in Hne;
    pose proof (Z.mod_pos_bound (Z.of_N (draws (rng s) (S (position (rng s)))))
                  (min_graph_depth a) ltac:(lia));
    pose proof (Z.mod_pos_bound
                  (Z.of_N (draws (rng s) (position (rng s)))
                   mod Graph.get_num_vertices (graph s))
                  (min_graph_depth a) ltac:(lia))
  end.
  repeat split; try lia; assumption.
Qed.

(** C1, on the arguments [3 3 1 true false] with the engine seeded by
    1700000011 over a zeroed buffer: the first additional edge is [(0, 2)],
    from a smaller to a larger index like the chain edges [(0, 1)] and
    [(1, 2)]; every edge of the stored graph then goes upwards, and the graph
    has no directed cycle at all. *)
Theorem first_cyclic_edge_can_point_forward :
  has_cicles one_cyclic_edge = true /\
  1 <= additional_edges one_cyclic_edge /\
  exists g,
    generate one_cyclic_edge zeroed (minstd_rand0 1700000011) 1
      = Generated g [(0, 1); (1, 2); (0, 2)] /\
    (forall u v, edge g u v -> u < v) /\
    ~ cycle_within (edge g) (min_graph_depth one_cyclic_edge) /\
    ~ cycle_within (edge g) (num_vertices one_cyclic_edge) /\
    main 7 one_cyclic_edge zeroed (minstd_rand0 1700000011) (constant 0) 1
      = Exit 0 EmptyString (Some one_cyclic_edge_text).
Proof.
  split; [reflexivity|]. split; [vm_compute; discriminate|].
  eexists. split; [vm_compute; reflexivity|].
  match goal with
  | |- ?A /\ _ => assert (Hup : A)
  end.
  { intros u v (Hu & Hv & He).
    change (0 <= u < 3) in Hu. change (0 <= v < 3) in Hv.
    assert (Hu' : u = 0 \/ u = 1 \/ u = 2) by lia.
    assert (Hv' : v = 0 \/ v = 1 \/ v = 2) by lia.
    destruct Hu' as [-> | [-> | ->]], Hv' as [-> | [-> | ->]];
      try lia; vm_compute in He; discriminate He. }
  split; [exact Hup|].
  split; [apply increasing_acyclic; exact Hup|].
  split; [apply increasing_acyclic; exact Hup|].
  vm_compute; reflexivity.
Qed.

(** ** The scenario [5 3 0 false false] *)

(** C6: with these arguments the program exits with code 0 whatever the
    engines return, and over a zeroed buffer the file holds the four lines
    [5], [2], [0 1], [1 2]; but over a buffer whose byte 6 is stale the entry
    [(1, 1)] is read as an edge and a fifth line [1 1] is written. *)
Theorem chain_only_output_depends_on_the_buffer :
  (forall seed rand fuel,
     main 7 chain_only zeroed seed rand fuel
       = Exit 0 EmptyString (Some chain_only_text)) /\
  (forall seed rand fuel,
     main 7 chain_only stale seed rand fuel
       = Exit 0 EmptyString (Some chain_only_stale_text)) /\
  chain_only_stale_text <> chain_only_text.
Proof.
  split; [|split].
  - intros seed rand [|fuel]; vm_compute; reflexivity.
  - intros seed rand [|fuel]; vm_compute; reflexivity.
  - vm_compute. discriminate.
Qed.

(** ** The stored graph over a zeroed buffer *)

(** An entry that is set after a replay was set before it or is the entry of
    one of the replayed pairs. *)
Lemma replay_matrix_true (calls : list (Z * Z)) :
  forall g j,
    Graph.matrix (replay g calls) j = true ->
    Graph.matrix g j = true \/
    exists f t, In (f, t) calls /\ j = Graph.index g f t.
Proof.
  induction calls as [|[f t] calls IH]; intros g j H.
  - left. exact H.
  - rewrite replay_cons in H. apply IH in H as [H | (f' & t' & Hin & Hj)].
    + unfold Graph.add_edge in H. cbn [snd Graph.matrix] in H.
      unfold Graph.store in H. destruct (Z.eqb_spec j (Graph.index g f t)).
      * right. exists f, t. split; [now left | assumption].
      * left. exact H.
    + right. exists f', t'. split; [now right | exact Hj].
Qed.

Lemma zeroed_new_matrix (n j : Z) :
  0 <= n < 2 ^ 32 -> Graph.matrix (Graph.new zeroed n) j = false.
Proof.
  intros Hn. rewrite new_matrix by exact Hn.
  destruct ((0 <=? j) && (j <? n)); reflexivity.
Qed.

(** Two pairs of vertices with the same offset are the same pair. *)
Lemma offset_injective (n f t u v : Z) :
  0 <= f < n -> 0 <= t < n -> 0 <= u < n -> 0 <= v < n ->
  f + t * n = u + v * n -> f = u /\ t = v.
Proof.
  intros Hf Ht Hu Hv H.
  assert (t = v) by nia. subst. split; [lia | reflexivity].
Qed.

(** Over a zeroed buffer whose size fits in 32 bits, the edges that the
    stored graph answers for are exactly inserted ones; without cycles the
    stored graph is then a directed acyclic graph. *)
Lemma acyclic_generation_is_a_dag_on_a_zeroed_buffer (a : Argv) (seed : nat -> N)
      (fuel : nat) (g : Graph.t) (ins : list (Z * Z)) :
  has_cicles a = false ->
  num_vertices a * num_vertices a <= 2 ^ 32 ->
  generate a zeroed seed fuel = Generated g ins ->
  (forall u v, edge g u v -> inserted_edge ins u v) /\
  ~ cycle_within (edge g) (num_vertices a).
Proof.
  intros Hc Hsq H.
  pose proof (acyclic_pairs_increase _ _ _ _ _ _ Hc H) as Hall.
  pose proof (num_vertices_range a) as Hn.
  apply generate_counts in H as (Hg & Hv & _).
  rewrite Forall_forall in Hall.
  assert (Hins : forall u v, edge g u v -> inserted_edge ins u v).
  { intros u v (Hu & Hv' & He). rewrite Hv in Hu, Hv'.
    unfold Graph.has_edge in He. cbn [fst] in He.
    assert (Hi : Graph.index g u v = u + v * num_vertices a).
    { unfold Graph.get_num_vertices in Hv. unfold Graph.index. rewrite Hv.
      apply wrap32_small. nia. }
    rewrite Hi in He. rewrite Hg in He.
    apply replay_matrix_true in He as [He | (f & t & Hin & Hj)].
    - rewrite zeroed_new_matrix in He by exact Hn. discriminate He.
    - pose proof (Hall _ Hin) as Hft. cbn [fst snd] in Hft.
      unfold Graph.index in Hj. cbn [Graph.num_vertices Graph.new] in Hj.
      rewrite wrap32_small in Hj by nia.
      destruct (offset_injective (num_vertices a) u v f t) as [-> ->];
        try lia.
      exact Hin. }
  split; [exact Hins|].
  apply increasing_acyclic. intros u v Huv.
  apply Hins, Hall in Huv. cbn [fst snd] in Huv. lia.
Qed.

(** * Further properties *)

(** ** Entries are only ever set *)

Lemma add_edge_keeps (g : Graph.t) (f t j : Z) :
  Graph.matrix g j = true ->
  Graph.matrix (snd (Graph.add_edge f t g)) j = true.
Proof.
  intros H. unfold Graph.add_edge, Graph.store. cbn [snd Graph.matrix].
  destruct (j =? Graph.index g f t); [reflexivity | exact H].
Qed.

Lemma replay_keeps (calls : list (Z * Z)) :
  forall g j, Graph.matrix g j = true -> Graph.matrix (replay g calls) j = true.
Proof.
  induction calls as [|[f t] calls IH]; intros g j H; [exact H|].
  rewrite replay_cons. apply IH, add_edge_keeps, H.
Qed.

Lemma add_edge_index (g : Graph.t) (f t u v : Z) :
  Graph.index (snd (Graph.add_edge f t g)) u v = Graph.index g u v.
Proof. reflexivity. Qed.

Lemma replay_index (calls : list (Z * Z)) :
  forall g u v, Graph.index (replay g calls) u v = Graph.index g u v.
Proof.
  induction calls as [|[f t] calls IH]; intros g u v; [reflexivity|].
  rewrite replay_cons, IH. apply add_edge_index.
Qed.

(** A replayed pair is answered true by [has_edge] afterwards, whatever was
    replayed after it. *)
Lemma replay_stores (calls : list (Z * Z)) :
  forall g f t, In (f, t) calls -> stored (replay g calls) (f, t) = true.
Proof.
  unfold stored, Graph.has_edge. cbn [fst snd].
  induction calls as [|[f' t'] calls IH]; intros g f t Hin; [destruct Hin|].
  rewrite replay_cons. destruct Hin as [Heq | Hin].
  - injection Heq as -> ->. rewrite replay_index.
    apply replay_keeps. rewrite add_edge_index.
    unfold Graph.add_edge. cbn [snd Graph.matrix]. apply store_same.
  - apply IH, Hin.
Qed.

(** ** What an accepted attempt has checked *)

(** The entry of an accepted pair was read as [false] just before the
    insertion. *)
Lemma attempt_accepted_absent (a : Argv) (s s' : Loop) (f t : Z) :
  attempt a s = Accepted f t s' -> stored (graph s) (f, t) = false.
Proof.
  intros H. unfold stored, Graph.has_edge. cbn [fst snd].
  open_attempt H; inversion H; subst;
    match goal with
    | Hp : negb ?b = true |- ?b = false => apply negb_true_iff in Hp; exact Hp
    end.
Qed.

(** An accepted pair joins two different vertices. *)
Lemma attempt_accepted_range (a : Argv) (s s' : Loop) (f t : Z) :
  0 <= Graph.get_num_vertices (graph s) ->
  min_graph_depth a <= Graph.get_num_vertices (graph s) ->
  attempt a s = Accepted f t s' ->
  0 <= f < Graph.get_num_vertices (graph s) /\
  0 <= t < Graph.get_num_vertices (graph s) /\ f <> t.
Proof.
  intros Hn Hd H. destruct (has_cicles a) eqn:Hc.
  - destruct (Z.eqb_spec (current_additional_edges s) 0) as [H0 | H0].
    + pose proof (attempt_first_cyclic _ _ _ _ _ Hc H0 H). lia.
    + unfold attempt in H. rewrite Hc in H. apply Z.eqb_neq in H0.
      rewrite H0 in H. open_attempt H. inversion H; subst. clear H.
      match goal with Hz : (Graph.get_num_vertices (graph s) =? 0) = false |- _ =>
        apply Z.eqb_neq in Hz end.
      match goal with Hne : negb (?x =? ?y) = true |- _ =>
        apply negb_true_iff, Z.eqb_neq in Hne end.
      pose proof (Z.mod_pos_bound (Z.of_N (draws (rng s) (S (position (rng s)))))
                    (Graph.get_num_vertices (graph s)) ltac:(lia)).
      pose proof (Z.mod_pos_bound (Z.of_N (draws (rng s) (position (rng s))))
                    (Graph.get_num_vertices (graph s)) ltac:(lia)).
      repeat split; try lia; assumption.
  - pose proof (attempt_accepted_acyclic _ _ _ _ _ Hc H). lia.
Qed.

(** ** The pairs inserted by a generation *)

Lemma chain_pairs_seeded (a : Argv) (g : Graph.t) :
  snd (seed_chain (chain_length (min_graph_depth a)) 1 g)
  = chain_pairs (min_graph_depth a).
Proof.
  pose proof (min_graph_depth_range a) as Hd. unfold chain_pairs.
  rewrite seed_chain_pairs by (unfold chain_length; lia).
  apply map_ext. intros k. f_equal; lia.
Qed.

Lemma chain_pairs_NoDup (depth : Z) : NoDup (chain_pairs depth).
Proof.
  unfold chain_pairs. apply Finite.Injective_map_NoDup; [|apply seq_NoDup].
  intros x y H. injection H as H _. lia.
Qed.

Lemma chain_pairs_In (depth i : Z) :
  1 <= i < depth -> In (i - 1, i) (chain_pairs depth).
Proof.
  intros Hi. unfold chain_pairs. apply in_map_iff.
  exists (Z.to_nat (i - 1)). split; [f_equal; lia|].
  apply in_seq. unfold chain_length. lia.
Qed.

(** What holds of the pairs inserted by a successful generation: the chain
    pairs come first and [additional_edges] more follow, no pair occurs
    twice, and each joins two different vertices. *)
Lemma generate_pairs (a : Argv) (fresh : Z -> bool) (seed : nat -> N)
      (fuel : nat) (g : Graph.t) (ins : list (Z * Z)) :
  generate a fresh seed fuel = Generated g ins ->
  (exists rest, ins = chain_pairs (min_graph_depth a) ++ rest) /\
  NoDup ins /\
  Forall (proper_pair (num_vertices a)) ins.
Proof.
  intros H.
  apply generate_inv in H as (Hv & s & Hs & _).
  apply validate_passed in Hv as [Hdn _].
  pose proof (num_vertices_range a) as Hn.
  set (g0 := Graph.new fresh (num_vertices a)) in *.
  apply (sampling_finished a
           (fun s ins =>
              Graph.get_num_vertices (graph s) = num_vertices a /\
              graph s = replay g0 ins /\
              (exists rest, ins = chain_pairs (min_graph_depth a) ++ rest) /\
              NoDup ins /\
              Forall (proper_pair (num_vertices a)) ins))
    in Hs.
  - destruct Hs as [(_ & _ & Hpre & Hnd & Hall) _]. auto.
  - intros s0 ins0 f t s1 (Hnv & Hg & [rest Hpre] & Hnd & Hall) _ Hacc.
    pose proof (attempt_accepted_absent _ _ _ _ _ Hacc) as Habs.
    pose proof (attempt_accepted_range a s0 s1 f t
                  ltac:(lia) ltac:(lia) Hacc) as Hr.
    apply attempt_accepted in Hacc as (Hg1 & _).
    split; [rewrite Hg1; exact Hnv|].
    split; [rewrite replay_snoc, Hg1, Hg; reflexivity|].
    split; [exists (rest ++ [(f, t)]); rewrite Hpre, app_assoc; reflexivity|].
    split.
    + apply NoDup_app; [exact Hnd | repeat constructor; intros [] |].
      intros e He [<- | []].
      rewrite Hg in Habs.
      rewrite (replay_stores _ _ _ _ He) in Habs. discriminate Habs.
    + apply Forall_app. split; [exact Hall|].
      constructor; [|constructor]. unfold proper_pair. cbn [fst snd]. lia.
  - intros s0 ins0 s1 (Hnv & Hg & Hpre & Hnd & Hall) _ Hrej.
    apply attempt_rejected in Hrej as (Hg1 & _).
    rewrite Hg1. auto.
  - rewrite chain_pairs_seeded.
    destruct (seed_chain _ 1 g0) as [g1 chain] eqn:Hchain.
    pose proof (chain_pairs_seeded a g0) as Hcp. rewrite Hchain in Hcp.
    cbn [snd] in Hcp. cbn [fst enter_loop graph].
    apply seed_chain_replay in Hchain as [-> _]. subst chain.
    split; [apply replay_num_vertices|]. split; [reflexivity|].
    split; [exists []; now rewrite app_nil_r|].
    split; [apply chain_pairs_NoDup|].
    pose proof (chain_pairs_increase a g0) as Hinc.
    rewrite chain_pairs_seeded in Hinc.
    eapply Forall_impl; [|exact Hinc]. cbn beta. intros e He.
    unfold proper_pair. lia.
Qed.

(** X3: after a successful generation [has_edge] answers true for every
    pair that was passed to [add_edge], and these include the chain edges
    [(i - 1, i)] for every [i] from 1 to [min_graph_depth - 1], each an edge
    between two vertices of the stored graph; this holds whatever the buffer
    held before. *)
Theorem inserted_pairs_are_stored (a : Argv) (fresh : Z -> bool) (seed : nat -> N)
        (fuel : nat) (g : Graph.t) (ins : list (Z * Z)) :
  generate a fresh seed fuel = Generated g ins ->
  (forall f t, In (f, t) ins -> fst (Graph.has_edge f t g) = true) /\
  (forall i, 1 <= i < min_graph_depth a ->
     In (i - 1, i) ins /\ edge g (i - 1) i).
Proof.
  intros H.
  pose proof (generate_pairs _ _ _ _ _ _ H) as ([rest Hpre] & _ & _).
  pose proof (generate_inv _ _ _ _ _ _ H) as (Hv & _).
  apply validate_passed in Hv as [Hdn _].
  apply generate_counts in H as (Hg & Hn & _).
  assert (Hst : forall f t, In (f, t) ins -> fst (Graph.has_edge f t g) = true).
  { intros f t Hin. rewrite Hg.
    exact (replay_stores ins _ f t Hin). }
  split; [exact Hst|].
  intros i Hi.
  assert (Hin : In (i - 1, i) ins).
  { rewrite Hpre. apply in_or_app. left. apply chain_pairs_In, Hi. }
  split; [exact Hin|].
  unfold edge. rewrite Hn. repeat split; try lia. apply Hst, Hin.
Qed.

Lemma inserted_pairs_are_stored_witness :
  exists g ins,
    generate shuffled_dag stale (constant 3) 1 = Generated g ins /\
    ins = [(0, 1); (1, 2); (0, 3)] /\
    fst (Graph.has_edge 0 3 g) = true /\
    edge g 1 2.
Proof.
  eexists. eexists. split; [vm_compute; reflexivity|].
  split; [reflexivity|].
  destruct (inserted_pairs_are_stored shuffled_dag stale (constant 3) 1 _ _
              ltac:(vm_compute; reflexivity)) as [Hst Hch].
  split.
  - apply Hst. right. right. left. reflexivity.
  - apply (Hch 2). vm_compute. split; [discriminate | reflexivity].
Defined.

(** X4: every pair passed to [add_edge] by a successful generation, with or
    without cycles, joins two vertices of the graph and is not a self-loop. *)
Theorem inserted_pairs_are_proper (a : Argv) (fresh : Z -> bool) (seed : nat -> N)
        (fuel : nat) (g : Graph.t) (ins : list (Z * Z)) :
  generate a fresh seed fuel = Generated g ins ->
  forall f t,
    In (f, t) ins ->
    0 <= f < Graph.get_num_vertices g /\
    0 <= t < Graph.get_num_vertices g /\
    f <> t.
Proof.
  intros H f t Hin.
  pose proof (generate_pairs _ _ _ _ _ _ H) as (_ & _ & Hall).
  apply generate_counts in H as (_ & -> & _).
  rewrite Forall_forall in Hall. exact (Hall _ Hin).
Qed.

Lemma inserted_pairs_are_proper_witness :
  exists g ins,
    generate two_cycle zeroed counting 1 = Generated g ins /\
    ins = [(0, 1); (1, 0)] /\
    (0 <= 1 < Graph.get_num_vertices g /\ 0 <= 0 < Graph.get_num_vertices g /\
     1 <> 0).
Proof.
  eexists. eexists. split; [vm_compute; reflexivity|].
  split; [reflexivity|].
  apply (inserted_pairs_are_proper two_cycle zeroed counting 1 _ _
           ltac:(vm_compute; reflexivity) 1 0).
  right. left. reflexivity.
Defined.

(** X5: a successful generation never passes the same pair to [add_edge]
    twice, whatever the buffer held before: the chain pairs are distinct and
    a sampled pair is inserted only when [has_edge] answered false for it.
    The pairs are the chain pairs followed by [additional_edges] more. *)
Theorem inserted_pairs_are_distinct (a : Argv) (fresh : Z -> bool) (seed : nat -> N)
        (fuel : nat) (g : Graph.t) (ins : list (Z * Z)) :
  generate a fresh seed fuel = Generated g ins ->
  NoDup ins /\
  exists rest,
    ins = chain_pairs (min_graph_depth a) ++ rest /\
    Z.of_nat (List.length rest) = additional_edges a.
Proof.
  intros H.
  pose proof (generate_pairs _ _ _ _ _ _ H) as ([rest Hpre] & Hnd & _).
  apply generate_counts in H as (_ & _ & Hl & _).
  split; [exact Hnd|]. exists rest. split; [exact Hpre|].
  rewrite Hpre, length_app in Hl. unfold chain_pairs in Hl.
  rewrite length_map, length_seq in Hl. lia.
Qed.

Lemma inserted_pairs_are_distinct_witness :
  exists g ins,
    generate two_cycle zeroed counting 1 = Generated g ins /\
    NoDup ins.
Proof.
  eexists. eexists. split; [vm_compute; reflexivity|].
  apply (inserted_pairs_are_distinct two_cycle zeroed counting 1 _ _
           ltac:(vm_compute; reflexivity)).
Defined.

(** ** The stored edges *)

Lemma list_prod_NoDup (l l' : list Z) :
  NoDup l -> NoDup l' -> NoDup (list_prod l l').
Proof.
  intros Hl Hl'. induction Hl as [|x l Hx Hl IH]; cbn [list_prod]; [constructor|].
  apply NoDup_app.
  - apply Finite.Injective_map_NoDup; [|exact Hl'].
    intros y z H. now injection H.
  - exact IH.
  - intros [u v] Hin Hin'. apply in_map_iff in Hin as (y & Hy & _).
    injection Hy as <- _. apply in_prod_iff in Hin' as [Hin' _]. contradiction.
Qed.

Lemma scan_NoDup (n : nat) : NoDup (scan n).
Proof. apply list_prod_NoDup; apply identity_labels_NoDup. Qed.

Lemma scan_In (n : nat) (u v : Z) :
  In (u, v) (scan n) <-> 0 <= u < Z.of_nat n /\ 0 <= v < Z.of_nat n.
Proof.
  unfold scan. rewrite in_prod_iff, !identity_labels_In. reflexivity.
Qed.

Lemma scan_length (n : nat) : List.length (scan n) = (n * n)%nat.
Proof.
  unfold scan, identity_labels. now rewrite length_prod, length_map, length_seq.
Qed.

(** The stored edges are the pairs of vertices for which [has_edge] answers
    true. *)
Lemma stored_edges_In (g : Graph.t) (u v : Z) :
  In (u, v) (stored_edges g) <-> edge g u v.
Proof.
  unfold stored_edges, edge, stored. rewrite filter_In, scan_In. cbn [fst snd].
  split.
  - intros [[Hu Hv] He]. repeat split; try lia; exact He.
  - intros (Hu & Hv & He). repeat split; try lia; exact He.
Qed.

Lemma stored_edges_NoDup (g : Graph.t) : NoDup (stored_edges g).
Proof. apply NoDup_filter, scan_NoDup. Qed.

(** Over a zeroed buffer whose size fits in 32 bits, an edge of the stored
    graph is an inserted pair. *)
Lemma stored_edge_inserted (a : Argv) (seed : nat -> N) (fuel : nat)
      (g : Graph.t) (ins : list (Z * Z)) (u v : Z) :
  num_vertices a * num_vertices a <= 2 ^ 32 ->
  generate a zeroed seed fuel = Generated g ins ->
  edge g u v -> In (u, v) ins.
Proof.
  intros Hsq H (Hu & Hv & He).
  pose proof (generate_pairs _ _ _ _ _ _ H) as (_ & _ & Hall).
  pose proof (num_vertices_range a) as Hn.
  apply generate_counts in H as (Hg & Hnv & _).
  rewrite Forall_forall in Hall. rewrite Hnv in Hu, Hv.
  unfold Graph.has_edge in He. cbn [fst] in He.
  assert (Hi : Graph.index g u v = u + v * num_vertices a).
  { unfold Graph.get_num_vertices in Hnv. unfold Graph.index. rewrite Hnv.
    apply wrap32_small. nia. }
  rewrite Hi, Hg in He.
  apply replay_matrix_true in He as [He | (f & t & Hin & Hj)].
  - rewrite zeroed_new_matrix in He by exact Hn. discriminate He.
  - pose proof (Hall _ Hin) as (Hf & Ht & _). cbn [fst snd] in Hf, Ht.
    unfold Graph.index in Hj. cbn [Graph.num_vertices Graph.new] in Hj.
    rewrite wrap32_small in Hj by nia.
    destruct (offset_injective (num_vertices a) u v f t) as [-> ->]; try lia.
    exact Hin.
Qed.

(** X6: when the buffer was zeroed and the square of [num_vertices] fits in
    32 bits, the edges of the stored graph after a successful generation are
    exactly the inserted pairs: the list of stored edges is a rearrangement
    of the inserted pairs and the edge counter is its length. *)
Theorem stored_edges_are_the_inserted_pairs (a : Argv) (seed : nat -> N)
        (fuel : nat) (g : Graph.t) (ins : list (Z * Z)) :
  num_vertices a * num_vertices a <= 2 ^ 32 ->
  generate a zeroed seed fuel = Generated g ins ->
  (forall u v, edge g u v <-> In (u, v) ins) /\
  Permutation ins (stored_edges g) /\
  Graph.get_num_edges g = Z.of_nat (List.length (stored_edges g)).
Proof.
  intros Hsq H.
  pose proof (generate_pairs _ _ _ _ _ _ H) as (_ & Hnd & Hall).
  pose proof (num_vertices_range a) as Hn.
  pose proof (generate_counts _ _ _ _ _ _ H) as (Hg & Hnv & _ & He).
  rewrite Forall_forall in Hall.
  assert (Hiff : forall u v, edge g u v <-> In (u, v) ins).
  { intros u v. split; [apply (stored_edge_inserted a seed fuel); assumption|].
    intros Hin. pose proof (Hall _ Hin) as (Hu & Hv & _). cbn [fst snd] in Hu, Hv.
    unfold edge. rewrite Hnv. repeat split; try lia.
    rewrite Hg. exact (replay_stores ins _ u v Hin). }
  assert (HP : Permutation ins (stored_edges g)).
  { apply NoDup_Permutation; [exact Hnd | apply stored_edges_NoDup|].
    intros [u v]. rewrite stored_edges_In. symmetry. apply Hiff. }
  split; [exact Hiff|]. split; [exact HP|].
  rewrite He, <- (Permutation_length HP). apply wrap32_small.
  split; [lia|].
  destruct (Z.eq_dec (num_vertices a) 0) as [H0 | H0].
  - destruct ins as [|e ins]; [rewrite two_32; cbn; lia|].
    pose proof (Hall e (or_introl eq_refl)) as (Hf & _). lia.
  - assert (Hlen : (List.length ((0%Z, 0%Z) :: ins)
                    <= List.length (scan (Z.to_nat (num_vertices a))))%nat).
    { apply NoDup_incl_length.
      - constructor; [|exact Hnd].
        intros Hin. pose proof (Hall _ Hin) as (_ & _ & Hne). now apply Hne.
      - intros [u v] [Heq | Hin].
        + injection Heq as <- <-. apply scan_In. lia.
        + pose proof (Hall _ Hin) as (Hu & Hv & _). cbn [fst snd] in Hu, Hv.
          apply scan_In. lia. }
    rewrite scan_length in Hlen. cbn [List.length] in Hlen. nia.
Qed.

Lemma stored_edges_are_the_inserted_pairs_witness :
  num_vertices two_cycle * num_vertices two_cycle <= 2 ^ 32 /\
  exists g ins,
    generate two_cycle zeroed counting 1 = Generated g ins /\
    Graph.get_num_edges g = Z.of_nat (List.length (stored_edges g)).
Proof.
  split; [vm_compute; discriminate|].
  eexists. eexists. split; [vm_compute; reflexivity|].
  apply (stored_edges_are_the_inserted_pairs two_cycle counting 1 _ _
           ltac:(vm_compute; discriminate) ltac:(vm_compute; reflexivity)).
Defined.

(** ** The text of the file *)














(** ** Division by zero *)

Lemma attempt_faults (a : Argv) (s : Loop) :
  attempt a s = ModuloByZero ->
  Graph.get_num_vertices (graph s) = 0 \/
  (has_cicles a = true /\ min_graph_depth a = 0).
Proof.
  intros H. unfold attempt, next in H.
  destruct (Z.eqb_spec (Graph.get_num_vertices (graph s)) 0) as [H0 | H0];
    [now left|].
  destruct (has_cicles a) eqn:Hc.
  - destruct (Z.eqb_spec (min_graph_depth a) 0) as [Hd | Hd]; [now right|].
    exfalso. open_attempt H.
  - exfalso. open_attempt H.
Qed.

Lemma attempt_no_vertices (a : Argv) (s : Loop) :
  Graph.get_num_vertices (graph s) = 0 -> attempt a s = ModuloByZero.
Proof.
  intros H. unfold attempt, next. rewrite H. reflexivity.
Qed.

Lemma attempt_no_depth (a : Argv) (s : Loop) :
  has_cicles a = true -> min_graph_depth a = 0 ->
  current_additional_edges s = 0 ->
  attempt a s = ModuloByZero.
Proof.
  intros Hc Hd H0. unfold attempt, next. rewrite Hc, Hd, H0.
  destruct (Graph.get_num_vertices (graph s) =? 0); reflexivity.
Qed.

Lemma sampling_faults (a : Argv) (fuel : nat) :
  forall s ins,
    sampling fuel a s ins = Faulted ->
    Graph.get_num_vertices (graph s) = 0 \/
    (has_cicles a = true /\ min_graph_depth a = 0).
Proof.
  induction fuel as [|fuel IH]; intros s ins H; cbn [sampling] in H;
    destruct (current_additional_edges s <? additional_edges a);
    try discriminate H.
  destruct (attempt a s) as [f t s1 | s1 | |] eqn:Hs; try discriminate H.
  - apply IH in H. apply attempt_accepted in Hs as (Hg & _).
    rewrite Hg in H. exact H.
  - apply IH in H. apply attempt_rejected in Hs as (Hg & _).
    rewrite Hg in H. exact H.
  - apply attempt_faults, Hs.
Qed.

Lemma seed_chain_num_vertices (count : nat) (i : Z) (g : Graph.t) :
  Graph.get_num_vertices (fst (seed_chain count i g)) = Graph.get_num_vertices g.
Proof.
  destruct (seed_chain count i g) as [g1 chain] eqn:H.
  apply seed_chain_replay in H as [-> _]. apply replay_num_vertices.
Qed.

Lemma generate_crashed (a : Argv) (fresh : Z -> bool) (seed : nat -> N)
      (fuel : nat) :
  generate a fresh seed fuel = Crashed ->
  num_vertices a = 0 \/ (has_cicles a = true /\ min_graph_depth a = 0).
Proof.
  unfold generate. intros H. destruct (validate a); [discriminate H|].
  pose proof (seed_chain_num_vertices (chain_length (min_graph_depth a)) 1
                (Graph.new fresh (num_vertices a))) as Hn.
  destruct (seed_chain _ 1 _) as [g1 chain]. cbn [fst] in Hn.
  destruct (sampling fuel a _ chain) eqn:Hs; try discriminate H.
  apply sampling_faults in Hs. cbn [enter_loop graph] in Hs.
  rewrite Hn in Hs. exact Hs.
Qed.

(** X9: the run is killed by a division by zero exactly in two situations.
    When the parameters pass the checks and at least one additional edge is
    asked for, [num_vertices = 0], or cycles together with
    [min_graph_depth = 0], make the first iteration of the sampling loop
    divide by zero; and a run that is killed was in one of these two
    situations. *)
Theorem division_by_zero_kills (a : Argv) (fresh : Z -> bool)
        (seed rand : nat -> N) (fuel : nat) :
  (validate a = None -> 1 <= additional_edges a ->
   num_vertices a = 0 \/ (has_cicles a = true /\ min_graph_depth a = 0) ->
   main 7 a fresh seed rand (S fuel) = Killed) /\
  (main 7 a fresh seed rand fuel = Killed ->
   num_vertices a = 0 \/ (has_cicles a = true /\ min_graph_depth a = 0)).
Proof.
  split.
  - intros Hv Ha Hz.
    pose proof (validate_passed _ Hv) as [Hdn _].
    pose proof (min_graph_depth_range a) as Hd.
    assert (Hd0 : min_graph_depth a = 0) by (destruct Hz as [Hz | [_ Hz]]; lia).
    unfold main. cbn [Z.eqb Pos.eqb negb]. unfold generate.
    rewrite Hv, Hd0. change (chain_length 0) with O. cbn [seed_chain sampling].
    cbn [enter_loop current_additional_edges].
    destruct (Z.ltb_spec 0 (additional_edges a)); [|lia].
    destruct Hz as [Hz | [Hc _]].
    + rewrite attempt_no_vertices; [reflexivity | exact Hz].
    + rewrite attempt_no_depth; auto.
  - unfold main. cbn [Z.eqb Pos.eqb negb].
    destruct (generate a fresh seed fuel) eqn:Hg; try discriminate.
    intros _. apply generate_crashed in Hg. exact Hg.
Qed.

Lemma division_by_zero_kills_witness :
  validate no_vertices = None /\
  1 <= additional_edges no_vertices /\
  num_vertices no_vertices = 0 /\
  main 7 no_vertices zeroed (constant 0) (constant 0) 1 = Killed.
Proof.
  split; [reflexivity|]. split; [vm_compute; discriminate|].
  split; [reflexivity|].
  apply (division_by_zero_kills no_vertices zeroed (constant 0) (constant 0) 0).
  - reflexivity.
  - vm_compute; discriminate.
  - left. reflexivity.
Defined.

(** ** Exit codes *)

Lemma validate_messages (a : Argv) (message : string) :
  validate a = Some message ->
  (message = depth_text /\ num_vertices a < min_graph_depth a) \/
  (message = cicles_text /\ min_graph_depth a <= num_vertices a /\
   has_cicles a = true /\ additional_edges a = 0).
Proof.
  unfold validate. pose proof (additional_edges_range a) as Ha.
  destruct (Z.gtb_spec (min_graph_depth a) (num_vertices a)) as [Hgt | Hle].
  - intros Hm. injection Hm as <-. left. split; [reflexivity | lia].
  - destruct (has_cicles a); cbn [andb]; [|discriminate].
    destruct (Z.ltb_spec (additional_edges a) 1) as [Hlt | Hge]; [|discriminate].
    intros Hm. injection Hm as <-. right. repeat split; lia.
Qed.

(** X8: the ways a run can end with an exit code.  With an argument count
    other than 7 it prints the usage text, exits with code 0 and writes no
    file, whatever the other arguments are.  With 7 it exits with code 1
    only from one of the two parameter checks, printing that check's message
    and writing no file; any other exit is code 0 after a successful
    generation, with nothing printed and the text of the graph sent to the
    stream on [argv[6]]: the file at that path is written when the path can
    be opened, and no file is written, with the same exit code 0, when it
    cannot. *)
Theorem exit_codes (argc : Z) (a : Argv) (fresh : Z -> bool)
        (seed rand : nat -> N) (fuel : nat) :
  (argc <> 7 ->
   main argc a fresh seed rand fuel = Exit 0 usage_text None /\
   forall opens, written_file opens a (main argc a fresh seed rand fuel) = None) /\
  (forall code printed file,
     main 7 a fresh seed rand fuel = Exit code printed file ->
     (code = 1 /\ file = None /\ validate a = Some printed /\
      ((printed = depth_text /\ num_vertices a < min_graph_depth a) \/
       (printed = cicles_text /\ min_graph_depth a <= num_vertices a /\
        has_cicles a = true /\ additional_edges a = 0)) /\
      forall opens, written_file opens a (main 7 a fresh seed rand fuel) = None) \/
     (code = 0 /\ printed = EmptyString /\ validate a = None /\
      exists g ins,
        generate a fresh seed fuel = Generated g ins /\
        file = Some (fst (write_graph a g (seeded rand))) /\
        forall opens,
          written_file opens a (main 7 a fresh seed rand fuel)
          = if opens (arg_output_name a)
            then Some (arg_output_name a, fst (write_graph a g (seeded rand)))
            else None)).
Proof.
  split.
  - intros Hne. unfold main. apply Z.eqb_neq in Hne. rewrite Hne.
    split; reflexivity.
  - intros code printed file Hmain.
    pose proof Hmain as H. unfold main in H. cbn [Z.eqb Pos.eqb negb] in H.
    destruct (generate a fresh seed fuel) as [g ins | message | | |] eqn:Hg;
      try discriminate H.
    + injection H as <- <- <-. right.
      pose proof (generate_inv _ _ _ _ _ _ Hg) as (Hv & _).
      repeat split; try assumption. exists g, ins.
      split; [reflexivity|]. split; [reflexivity|].
      intros opens. rewrite Hmain. reflexivity.
    + injection H as <- <- <-. left.
      assert (Hv : validate a = Some message).
      { unfold generate in Hg. destruct (validate a) as [m|].
        - now injection Hg as ->.
        - destruct (seed_chain _ 1 _) as [g1 chain].
          destruct (sampling fuel a _ chain); discriminate Hg. }
      split; [reflexivity|]. split; [reflexivity|]. split; [exact Hv|].
      split; [apply validate_messages, Hv|].
      intros opens. rewrite Hmain. reflexivity.
    + exfalso. exact (generate_never_exhausted _ _ _ _ Hg).
Qed.

Lemma exit_codes_witness :
  8 <> 7 /\
  main 8 too_deep zeroed (constant 0) (constant 0) 0 = Exit 0 usage_text None /\
  main 7 chain_only_nowhere zeroed (constant 0) (constant 0) 0
  = Exit 0 EmptyString (Some chain_only_text) /\
  written_file no_path chain_only_nowhere
    (main 7 chain_only_nowhere zeroed (constant 0) (constant 0) 0)
  = None.
Proof.
  split; [discriminate|]. split.
  - apply (exit_codes 8 too_deep zeroed (constant 0) (constant 0) 0).
    discriminate.
  - assert (Hmain : main 7 chain_only_nowhere zeroed (constant 0) (constant 0) 0
                    = Exit 0 EmptyString (Some chain_only_text))
      by (vm_compute; reflexivity).
    split; [exact Hmain|].
    destruct (proj2 (exit_codes 7 chain_only_nowhere zeroed (constant 0)
                       (constant 0) 0) _ _ _ Hmain)
      as [(Hcode & _) | (_ & _ & _ & g & ins & _ & _ & Hfile)];
      [discriminate Hcode|].
    rewrite (Hfile no_path). reflexivity.
Defined.

(** ** Requests that cannot be met *)

Lemma upward_pairs_In (n : nat) (f t : Z) :
  0 <= f < t -> t < Z.of_nat n -> In (f, t) (upward_pairs n).
Proof.
  intros Hf Ht. unfold upward_pairs. apply in_flat_map.
  exists (Z.to_nat t). split; [apply in_seq; lia|].
  apply in_map_iff. exists (Z.to_nat f). split; [f_equal; lia|].
  apply in_seq. lia.
Qed.

Lemma upward_pairs_length (n : nat) :
  2 * Z.of_nat (List.length (upward_pairs n)) = Z.of_nat n * (Z.of_nat n - 1).
Proof.
  unfold upward_pairs. induction n as [|n IH]; [reflexivity|].
  rewrite seq_S, flat_map_app, length_app, Nat2Z.inj_add.
  cbn [flat_map plus]. rewrite app_nil_r, length_map, length_seq. nia.
Qed.

(** Without cycles the inserted pairs are distinct and all go upwards, so
    there are at most [n (n - 1) / 2] of them. *)
Lemma acyclic_generation_bound (a : Argv) (fresh : Z -> bool) (seed : nat -> N)
      (fuel : nat) (g : Graph.t) (ins : list (Z * Z)) :
  has_cicles a = false ->
  generate a fresh seed fuel = Generated g ins ->
  2 * (Z.max (min_graph_depth a - 1) 0 + additional_edges a)
  <= num_vertices a * (num_vertices a - 1).
Proof.
  intros Hc H.
  pose proof (acyclic_pairs_increase _ _ _ _ _ _ Hc H) as Hall.
  pose proof (generate_pairs _ _ _ _ _ _ H) as (_ & Hnd & _).
  pose proof (num_vertices_range a) as Hn.
  apply generate_counts in H as (_ & _ & Hl & _).
  unfold chain_length in Hl.
  replace (Z.of_nat (Z.to_nat (min_graph_depth a - 1)))
    with (Z.max (min_graph_depth a - 1) 0) in Hl by lia.
  rewrite <- Hl.
  assert (Hlen : (List.length ins
                  <= List.length (upward_pairs (Z.to_nat (num_vertices a))))%nat).
  { apply NoDup_incl_length; [exact Hnd|].
    intros [f t] Hin. rewrite Forall_forall in Hall.
    apply Hall in Hin. cbn [fst snd] in Hin. apply upward_pairs_In; lia. }
  pose proof (upward_pairs_length (Z.to_nat (num_vertices a))) as Hup.
  rewrite Z2Nat.id in Hup by lia. lia.
Qed.

(** X10: without cycles a generation can only succeed when the chain and the
    additional edges together are at most [num_vertices (num_vertices - 1) / 2],
    the number of pairs [from < to].  When more are asked for on at least
    one vertex, the program neither writes a file nor reports an error: the
    sampling loop is still running after any number of iterations. *)
Theorem acyclic_request_beyond_all_pairs_never_ends (a : Argv) (fresh : Z -> bool)
        (seed rand : nat -> N) (fuel : nat) :
  has_cicles a = false ->
  (forall g ins,
     generate a fresh seed fuel = Generated g ins ->
     2 * (Z.max (min_graph_depth a - 1) 0 + additional_edges a)
     <= num_vertices a * (num_vertices a - 1)) /\
  (validate a = None -> 1 <= num_vertices a ->
   num_vertices a * (num_vertices a - 1)
   < 2 * (Z.max (min_graph_depth a - 1) 0 + additional_edges a) ->
   main 7 a fresh seed rand fuel = Loops).
Proof.
  intros Hc. split.
  - intros g ins H. exact (acyclic_generation_bound _ _ _ _ _ _ Hc H).
  - intros Hv Hn Hmany. unfold main. cbn [Z.eqb Pos.eqb negb].
    destruct (generate a fresh seed fuel) as [g ins | message | | |] eqn:Hg.
    + apply (acyclic_generation_bound _ _ _ _ _ _ Hc) in Hg. lia.
    + unfold generate in Hg. rewrite Hv in Hg.
      destruct (seed_chain _ 1 _) as [g1 chain].
      destruct (sampling fuel a _ chain); discriminate Hg.
    + exfalso. exact (generate_never_exhausted _ _ _ _ Hg).
    + apply generate_crashed in Hg as [H0 | [Hc' _]]; [lia | congruence].
    + reflexivity.
Qed.

Lemma acyclic_request_beyond_all_pairs_never_ends_witness :
  has_cicles too_many_edges = false /\
  validate too_many_edges = None /\
  num_vertices too_many_edges * (num_vertices too_many_edges - 1)
  < 2 * (Z.max (min_graph_depth too_many_edges - 1) 0
         + additional_edges too_many_edges) /\
  main 7 too_many_edges zeroed counting (constant 0) 1000 = Loops.
Proof.
  split; [reflexivity|]. split; [reflexivity|]. split; [reflexivity|].
  apply (acyclic_request_beyond_all_pairs_never_ends too_many_edges zeroed
           counting (constant 0) 1000 eq_refl);
    [reflexivity | vm_compute; discriminate | reflexivity].
Defined.

(** ** Cycles on short chains *)

(** With cycles and a chain of two vertices, the first additional edge can
    only be [(1, 0)]: the other candidate, [(0, 1)], is the chain edge. *)
Lemma two_chain_back_edge (a : Argv) (fresh : Z -> bool) (seed : nat -> N)
      (fuel : nat) (g : Graph.t) (ins : list (Z * Z)) :
  has_cicles a = true -> min_graph_depth a = 2 ->
  generate a fresh seed fuel = Generated g ins ->
  In (0, 1) ins /\ In (1, 0) ins.
Proof.
  intros Hc Hd H.
  pose proof (generate_inv _ _ _ _ _ _ H) as (Hv & s & Hs & _).
  apply validate_passed in Hv as [_ Ha]. specialize (Ha Hc).
  pose proof (additional_edges_range a) as Har.
  set (g0 := Graph.new fresh (num_vertices a)) in *.
  apply (sampling_finished a
           (fun s ins =>
              graph s = replay g0 ins /\ In (0, 1) ins /\
              (current_additional_edges s = 0 \/
               (1 <= current_additional_edges s /\ In (1, 0) ins))))
    in Hs.
  - destruct Hs as [(_ & H01 & [H0 | [_ H10]]) Hge]; [lia | auto].
  - intros s0 ins0 f t s1 (Hg & H01 & Hcase) Hlt Hacc.
    pose proof (attempt_accepted_absent _ _ _ _ _ Hacc) as Habs.
    pose proof (attempt_accepted _ _ _ _ _ Hacc) as (Hg1 & Hc1 & _).
    split; [rewrite replay_snoc, Hg1, Hg; reflexivity|].
    split; [apply in_or_app; now left|].
    right. destruct Hcase as [H0 | [H1 H10]].
    + pose proof (attempt_first_cyclic _ _ _ _ _ Hc H0 Hacc) as (Hf & Ht & Hne).
      rewrite Hd in Hf, Ht. rewrite Hc1, H0.
      split; [vm_compute; discriminate|].
      apply in_or_app. right. left.
      assert (Hcases : (f = 0 /\ t = 1) \/ (f = 1 /\ t = 0)) by lia.
      destruct Hcases as [[-> ->] | [-> ->]]; [|reflexivity].
      rewrite Hg in Habs. rewrite (replay_stores _ _ _ _ H01) in Habs.
      discriminate Habs.
    + rewrite Hc1, wrap32_small by lia.
      split; [lia | apply in_or_app; now left].
  - intros s0 ins0 s1 (Hg & H01 & Hcase) _ Hrej.
    apply attempt_rejected in Hrej as (Hg1 & Hc1 & _).
    rewrite Hg1, Hc1. auto.
  - rewrite chain_pairs_seeded.
    destruct (seed_chain _ 1 g0) as [g1 chain] eqn:Hchain.
    pose proof (chain_pairs_seeded a g0) as Hcp. rewrite Hchain in Hcp.
    cbn [snd] in Hcp. cbn [fst enter_loop graph current_additional_edges].
    apply seed_chain_replay in Hchain as [-> _]. subst chain.
    split; [reflexivity|]. split; [|now left].
    rewrite Hd. left. reflexivity.
Qed.

(** X11: with cycles and [min_graph_depth = 2], a successful generation has
    stored both [(0, 1)] and [(1, 0)]: the graph contains the directed cycle
    0, 1, 0 among its first two vertices, whatever the engine returned and
    whatever the buffer held. *)
Theorem two_chain_closes_a_cycle (a : Argv) (fresh : Z -> bool) (seed : nat -> N)
        (fuel : nat) (g : Graph.t) (ins : list (Z * Z)) :
  has_cicles a = true -> min_graph_depth a = 2 ->
  generate a fresh seed fuel = Generated g ins ->
  edge g 0 1 /\ edge g 1 0 /\ cycle_within (edge g) (min_graph_depth a).
Proof.
  intros Hc Hd H.
  pose proof (two_chain_back_edge _ _ _ _ _ _ Hc Hd H) as [H01 H10].
  pose proof (generate_inv _ _ _ _ _ _ H) as (Hv & _).
  apply validate_passed in Hv as [Hdn _].
  apply generate_counts in H as (Hg & Hn & _).
  assert (Hst : forall f t, In (f, t) ins -> fst (Graph.has_edge f t g) = true).
  { intros f t Hin. rewrite Hg. exact (replay_stores ins _ f t Hin). }
  assert (E01 : edge g 0 1).
  { unfold edge. rewrite Hn. repeat split; try lia. apply Hst, H01. }
  assert (E10 : edge g 1 0).
  { unfold edge. rewrite Hn. repeat split; try lia. apply Hst, H10. }
  split; [exact E01|]. split; [exact E10|].
  exists 0. rewrite Hd. apply (walk_step _ _ 0 1 0); [lia | exact E01|].
  apply walk_edge; [lia | lia | exact E10].
Qed.

Lemma two_chain_closes_a_cycle_witness :
  has_cicles two_cycle = true /\ min_graph_depth two_cycle = 2 /\
  exists g ins,
    generate two_cycle zeroed counting 1 = Generated g ins /\
    cycle_within (edge g) 2.
Proof.
  split; [reflexivity|]. split; [reflexivity|].
  eexists. eexists. split; [vm_compute; reflexivity|].
  destruct (two_chain_closes_a_cycle two_cycle zeroed counting 1 _ _
              eq_refl eq_refl ltac:(vm_compute; reflexivity)) as (_ & _ & Hcyc).
  exact Hcyc.
Defined.

(** With cycles and a chain of one vertex both ends of the first candidate
    are vertex 0: the attempt is rejected. *)
Lemma one_chain_attempt (a : Argv) (s : Loop) :
  has_cicles a = true -> min_graph_depth a = 1 ->
  Graph.get_num_vertices (graph s) <> 0 ->
  current_additional_edges s = 0 ->
  0 <= current_iterations s < 2 ^ 8 ->
  exists s',
    attempt a s = Rejected s' /\
    graph s' = graph s /\
    current_additional_edges s' = 0 /\
    0 <= current_iterations s' < 2 ^ 8.
Proof.
  intros Hc Hd Hn H0 Hit. unfold attempt, next.
  apply Z.eqb_neq in Hn. rewrite Hn, Hc, H0, Hd.
  change (0 =? 0) with true. change (1 =? 0) with false. cbv iota.
  rewrite !Z.mod_1_r. change (negb (0 =? 0)) with false. cbv iota.
  rewrite reject_continues by exact Hit.
  eexists. split; [reflexivity|]. cbn.
  repeat split; try apply wrap8_range. exact H0.
Qed.

Lemma one_chain_sampling (a : Argv) (fuel : nat) :
  has_cicles a = true -> min_graph_depth a = 1 -> 1 <= additional_edges a ->
  forall s ins,
    Graph.get_num_vertices (graph s) <> 0 ->
    current_additional_edges s = 0 ->
    0 <= current_iterations s < 2 ^ 8 ->
    sampling fuel a s ins = Running.
Proof.
  intros Hc Hd Ha.
  induction fuel as [|fuel IH]; intros s ins Hn H0 Hit; cbn [sampling];
    rewrite H0; destruct (Z.ltb_spec 0 (additional_edges a)); try lia.
  - reflexivity.
  - destruct (one_chain_attempt a s Hc Hd Hn H0 Hit) as (s' & -> & Hg & H0' & Hit').
    apply IH; [rewrite Hg; exact Hn | exact H0' | exact Hit'].
Qed.

(** X12: with cycles and [min_graph_depth = 1], parameters that pass both
    checks never produce a graph: the first additional edge would have to
    join vertex 0 to itself, every attempt is rejected, and the sampling loop
    is still running after any number of iterations. *)
Theorem one_chain_with_cycles_never_ends (a : Argv) (fresh : Z -> bool)
        (seed rand : nat -> N) (fuel : nat) :
  has_cicles a = true -> min_graph_depth a = 1 -> validate a = None ->
  main 7 a fresh seed rand fuel = Loops.
Proof.
  intros Hc Hd Hv.
  pose proof (validate_passed _ Hv) as [Hdn Ha]. specialize (Ha Hc).
  unfold main. cbn [Z.eqb Pos.eqb negb]. unfold generate. rewrite Hv.
  pose proof (seed_chain_num_vertices (chain_length (min_graph_depth a)) 1
                (Graph.new fresh (num_vertices a))) as Hn.
  destruct (seed_chain _ 1 _) as [g1 chain]. cbn [fst] in Hn.
  rewrite (one_chain_sampling a fuel Hc Hd Ha); [reflexivity | | reflexivity |].
  - cbn [enter_loop graph]. rewrite Hn. cbn. lia.
  - cbn [enter_loop current_iterations]. rewrite two_8. lia.
Qed.

Lemma one_chain_with_cycles_never_ends_witness :
  has_cicles depth_one_cyclic = true /\ min_graph_depth depth_one_cyclic = 1 /\
  validate depth_one_cyclic = None /\
  main 7 depth_one_cyclic zeroed counting (constant 0) 1000 = Loops.
Proof.
  split; [reflexivity|]. split; [reflexivity|]. split; [reflexivity|].
  apply (one_chain_with_cycles_never_ends depth_one_cyclic zeroed counting
           (constant 0) 1000); reflexivity.
Defined.

(** In any mode the inserted pairs are distinct pairs of different vertices,
    so there are at most [n (n - 1)] of them. *)
Lemma generation_bound (a : Argv) (fresh : Z -> bool) (seed : nat -> N)
      (fuel : nat) (g : Graph.t) (ins : list (Z * Z)) :
  generate a fresh seed fuel = Generated g ins ->
  Z.max (min_graph_depth a - 1) 0 + additional_edges a
  <= num_vertices a * (num_vertices a - 1).
Proof.
  intros H.
  pose proof (generate_pairs _ _ _ _ _ _ H) as (_ & Hnd & Hall).
  pose proof (num_vertices_range a) as Hn.
  apply generate_counts in H as (_ & _ & Hl & _).
  unfold chain_length in Hl.
  replace (Z.of_nat (Z.to_nat (min_graph_depth a - 1)))
    with (Z.max (min_graph_depth a - 1) 0) in Hl by lia.
  rewrite <- Hl. rewrite Forall_forall in Hall.
  set (n := Z.to_nat (num_vertices a)).
  set (diagonal := map (fun k => (Z.of_nat k, Z.of_nat k)) (seq 0 n)).
  assert (Hlen : (List.length (diagonal ++ ins) <= List.length (scan n))%nat).
  { apply NoDup_incl_length.
    - apply NoDup_app; [|exact Hnd|].
      + apply Finite.Injective_map_NoDup; [|apply seq_NoDup].
        intros x y Hxy. injection Hxy as Hxy _. lia.
      + intros e He Hin. apply in_map_iff in He as (k & <- & _).
        apply Hall in Hin as (_ & _ & Hne). now apply Hne.
    - intros [u v] Hin. apply scan_In. apply in_app_or in Hin as [Hin | Hin].
      + apply in_map_iff in Hin as (k & Hk & Hin). injection Hk as <- <-.
        apply in_seq in Hin. lia.
      + apply Hall in Hin as (Hu & Hv & _). cbn [fst snd] in Hu, Hv.
        unfold n. lia. }
  rewrite scan_length, length_app in Hlen. unfold diagonal in Hlen.
  rewrite length_map, length_seq in Hlen. unfold n in Hlen. nia.
Qed.

(** X13: in either mode a generation can only succeed when the chain and the
    additional edges together are at most [num_vertices (num_vertices - 1)],
    the number of ordered pairs of different vertices.  With cycles, a chain
    of at least one vertex and more edges asked for than that, the sampling
    loop is still running after any number of iterations. *)
Theorem request_beyond_all_pairs_never_ends (a : Argv) (fresh : Z -> bool)
        (seed rand : nat -> N) (fuel : nat) :
  (forall g ins,
     generate a fresh seed fuel = Generated g ins ->
     Z.max (min_graph_depth a - 1) 0 + additional_edges a
     <= num_vertices a * (num_vertices a - 1)) /\
  (validate a = None -> 1 <= min_graph_depth a ->
   num_vertices a * (num_vertices a - 1)
   < Z.max (min_graph_depth a - 1) 0 + additional_edges a ->
   main 7 a fresh seed rand fuel = Loops).
Proof.
  split.
  - intros g ins H. exact (generation_bound _ _ _ _ _ _ H).
  - intros Hv Hd Hmany. pose proof (validate_passed _ Hv) as [Hdn _].
    unfold main. cbn [Z.eqb Pos.eqb negb].
    destruct (generate a fresh seed fuel) as [g ins | message | | |] eqn:Hg.
    + apply generation_bound in Hg. lia.
    + unfold generate in Hg. rewrite Hv in Hg.
      destruct (seed_chain _ 1 _) as [g1 chain].
      destruct (sampling fuel a _ chain); discriminate Hg.
    + exfalso. exact (generate_never_exhausted _ _ _ _ Hg).
    + apply generate_crashed in Hg as [H0 | [_ H0]]; lia.
    + reflexivity.
Qed.

Lemma request_beyond_all_pairs_never_ends_witness :
  validate crowded = None /\
  1 <= min_graph_depth crowded /\
  num_vertices crowded * (num_vertices crowded - 1)
  < Z.max (min_graph_depth crowded - 1) 0 + additional_edges crowded /\
  main 7 crowded zeroed counting (constant 0) 1000 = Loops.
Proof.
  split; [reflexivity|]. split; [vm_compute; discriminate|].
  split; [reflexivity|].
  apply (request_beyond_all_pairs_never_ends crowded zeroed counting
           (constant 0) 1000);
    [reflexivity | vm_compute; discriminate | reflexivity].
Defined.

(** ** The store, pair by pair *)

(** X1: on a graph whose square of [num_vertices] fits in 32 bits,
    [add_edge(from, to)] changes the answer of [has_edge] for the pair
    [(from, to)] only: every other pair of vertices, the reversed pair
    [(to, from)] among them, is answered as before.  The bound matters: on
    65537 vertices [add_edge(0, 65536)] also sets the entry that
    [has_edge(65536, 0)] reads. *)
Theorem add_edge_leaves_other_pairs (g : Graph.t) (from to u v : Z) :
  Graph.get_num_vertices g * Graph.get_num_vertices g <= 2 ^ 32 ->
  0 <= from < Graph.get_num_vertices g -> 0 <= to < Graph.get_num_vertices g ->
  0 <= u < Graph.get_num_vertices g -> 0 <= v < Graph.get_num_vertices g ->
  (u, v) <> (from, to) ->
  fst (Graph.has_edge u v (snd (Graph.add_edge from to g)))
  = fst (Graph.has_edge u v g) /\
  (from <> to ->
   fst (Graph.has_edge to from (snd (Graph.add_edge from to g)))
   = fst (Graph.has_edge to from g)) /\
  (fst (Graph.has_edge 65536 0 wide) = false /\
   fst (Graph.has_edge 65536 0 (snd (Graph.add_edge 0 65536 wide))) = true).
Proof.
  intros Hsq Hf Ht Hu Hv Hne.
  assert (Hframe : forall x y,
             0 <= x < Graph.get_num_vertices g ->
             0 <= y < Graph.get_num_vertices g ->
             (x, y) <> (from, to) ->
             fst (Graph.has_edge x y (snd (Graph.add_edge from to g)))
             = fst (Graph.has_edge x y g)).
  { intros x y Hx Hy Hxy. unfold Graph.has_edge, Graph.add_edge.
    cbn [fst snd Graph.matrix]. unfold Graph.index.
    cbn [Graph.num_vertices]. unfold Graph.get_num_vertices in *.
    apply store_other. rewrite !wrap32_small by nia.
    intros Heq. apply Hxy.
    destruct (offset_injective (Graph.num_vertices g) x y from to) as [-> ->];
      try lia. reflexivity. }
  split; [apply Hframe; assumption|]. split.
  - intros Hft. apply Hframe; try assumption. intros Heq.
    injection Heq as H1 H2. lia.
  - split; vm_compute; reflexivity.
Qed.

Lemma add_edge_leaves_other_pairs_witness :
  fst (Graph.has_edge 2 1 (snd (Graph.add_edge 1 2 (Graph.new zeroed 4))))
  = fst (Graph.has_edge 2 1 (Graph.new zeroed 4)).
Proof.
  apply (add_edge_leaves_other_pairs (Graph.new zeroed 4) 1 2 2 1);
    try (vm_compute; split; discriminate || reflexivity);
    try (vm_compute; discriminate).
Defined.

(** X2: when the square of [num_vertices] is below 2^32, the buffer asked
    for has that many bytes and the constructor's loop and every [has_edge]
    on a pair of vertices stay inside it.  The constructor returns a graph
    with that many vertices and no edge counted, in which [has_edge(from, 0)]
    is false for every vertex [from], while [has_edge(from, to)] with
    [to >= 1] is whatever byte the buffer held at [from + to * num_vertices]
    before; on a zeroed buffer [has_edge] is false for every pair of vertices
    and there is no stored edge. *)
Theorem constructor_clears_the_first_row (fresh : Z -> bool) (n : Z) :
  0 <= n -> n * n < 2 ^ 32 ->
  Graph.allocated n = n * n /\
  (forall i, 0 <= i < n -> i < Graph.allocated n) /\
  (forall from to, 0 <= from < n -> 0 <= to < n ->
     0 <= Graph.index (Graph.new fresh n) from to < Graph.allocated n) /\
  Graph.get_num_vertices (Graph.new fresh n) = n /\
  Graph.get_num_edges (Graph.new fresh n) = 0 /\
  (forall from, 0 <= from < n ->
     fst (Graph.has_edge from 0 (Graph.new fresh n)) = false) /\
  (forall from to, 0 <= from < n -> 1 <= to < n ->
     fst (Graph.has_edge from to (Graph.new fresh n)) = fresh (from + to * n)) /\
  (forall from to, 0 <= from < n -> 0 <= to < n ->
     fst (Graph.has_edge from to (Graph.new zeroed n)) = false) /\
  stored_edges (Graph.new zeroed n) = [].
Proof.
  intros Hn Hsq. assert (Hr : 0 <= n < 2 ^ 32) by nia.
  assert (Hal : Graph.allocated n = n * n)
    by (unfold Graph.allocated; apply wrap32_small; nia).
  assert (Hz : forall from to,
             fst (Graph.has_edge from to (Graph.new zeroed n)) = false).
  { intros from to. unfold Graph.has_edge. cbn [fst].
    apply zeroed_new_matrix, Hr. }
  split; [exact Hal|]. split; [intros i Hi; rewrite Hal; nia|]. split.
  { intros from to Hf Ht. rewrite Hal.
    rewrite index_in_range; cbn [Graph.num_vertices Graph.new]; nia. }
  split; [reflexivity|]. split; [reflexivity|]. split.
  { intros from Hf. apply new_first_row; assumption. }
  split.
  { intros from to Hf Ht. apply new_other_rows; try assumption. lia. }
  split; [intros from to _ _; apply Hz|].
  unfold stored_edges.
  induction (scan (Z.to_nat (Graph.get_num_vertices (Graph.new zeroed n))))
    as [|[u v] l IH]; [reflexivity|].
  cbn [filter]. unfold stored at 1. cbn [fst snd]. rewrite Hz. exact IH.
Qed.

Lemma constructor_clears_the_first_row_witness :
  0 <= 3 /\ 3 * 3 < 2 ^ 32 /\
  Graph.allocated 3 = 3 * 3 /\
  fst (Graph.has_edge 0 2 (Graph.new stale 3)) = stale (0 + 2 * 3).
Proof.
  split; [discriminate|]. split; [reflexivity|].
  destruct (constructor_clears_the_first_row stale 3 ltac:(lia) eq_refl)
    as (Hal & _ & _ & _ & _ & _ & Hrows & _).
  split; [exact Hal|]. apply Hrows; lia.
Defined.

(** ** The first additional edge with cycles *)

Lemma walk_snoc (E : Z -> Z -> Prop) (bound u v w : Z) :
  walk E bound u v -> w < bound -> E v w -> walk E bound u w.
Proof.
  intros Huv Hw Hvw. induction Huv as [u v Hu Hv Huv | u v x Hu Huv _ IH].
  - apply (walk_step _ _ u v w); [exact Hu | exact Huv|].
    apply walk_edge; assumption.
  - apply (walk_step _ _ u v w); [exact Hu | exact Huv | apply IH, Hvw].
Qed.

(** When every chain edge is an edge, the chain leads from each of its
    vertices to each later one. *)
Lemma chain_walk (E : Z -> Z -> Prop) (depth : Z) :
  (forall i, 1 <= i < depth -> E (i - 1) i) ->
  forall (k : nat) (u : Z),
    0 <= u -> u + 1 + Z.of_nat k < depth ->
    walk E depth u (u + 1 + Z.of_nat k).
Proof.
  intros Hchain. induction k as [|k IH]; intros u Hu Hb.
  - replace (u + 1 + Z.of_nat 0) with (u + 1) in * by lia.
    apply walk_edge; try lia.
    replace u with (u + 1 - 1) at 1 by lia. apply Hchain. lia.
  - apply (walk_step _ _ u (u + 1)); [lia | |].
    + replace u with (u + 1 - 1) at 1 by lia. apply Hchain. lia.
    + replace (u + 1 + Z.of_nat (S k)) with (u + 1 + 1 + Z.of_nat k) by lia.
      apply IH; lia.
Qed.

(** With cycles, the pair inserted first after the chain joins two different
    chain vertices and is not a chain edge. *)
Lemma first_additional_pair (a : Argv) (fresh : Z -> bool) (seed : nat -> N)
      (fuel : nat) (g : Graph.t) (ins : list (Z * Z)) :
  has_cicles a = true ->
  generate a fresh seed fuel = Generated g ins ->
  exists f t rest,
    ins = chain_pairs (min_graph_depth a) ++ (f, t) :: rest /\
    0 <= f < min_graph_depth a /\ 0 <= t < min_graph_depth a /\
    f <> t /\ t <> f + 1.
Proof.
  intros Hc H.
  pose proof (generate_inv _ _ _ _ _ _ H) as (Hv & s & Hs & _).
  apply validate_passed in Hv as [_ Ha]. specialize (Ha Hc).
  pose proof (additional_edges_range a) as Har.
  set (g0 := Graph.new fresh (num_vertices a)) in *.
  set (chain := chain_pairs (min_graph_depth a)) in *.
  apply (sampling_finished a
           (fun s ins =>
              graph s = replay g0 ins /\
              ((current_additional_edges s = 0 /\ ins = chain) \/
               (1 <= current_additional_edges s /\
                exists f t rest,
                  ins = chain ++ (f, t) :: rest /\
                  0 <= f < min_graph_depth a /\ 0 <= t < min_graph_depth a /\
                  f <> t /\ t <> f + 1))))
    in Hs.
  - destruct Hs as [(_ & [[H0 _] | [_ Hex]]) Hge]; [lia | exact Hex].
  - intros s0 ins0 f t s1 (Hg & Hcase) Hlt Hacc.
    pose proof (attempt_accepted_absent _ _ _ _ _ Hacc) as Habs.
    pose proof (attempt_accepted _ _ _ _ _ Hacc) as (Hg1 & Hc1 & _).
    split; [rewrite replay_snoc, Hg1, Hg; reflexivity|].
    right. destruct Hcase as [[H0 Hins] | [H1 (f' & t' & rest & Hins & Hp)]].
    + pose proof (attempt_first_cyclic _ _ _ _ _ Hc H0 Hacc) as (Hf & Ht & Hne).
      rewrite Hc1, H0. split; [vm_compute; discriminate|].
      exists f, t, []. rewrite Hins. repeat split; try lia.
      intros Hnext. subst t.
      assert (Hin : In (f, f + 1) ins0).
      { rewrite Hins. replace f with (f + 1 - 1) at 1 by lia.
        apply chain_pairs_In. lia. }
      rewrite Hg in Habs. rewrite (replay_stores _ _ _ _ Hin) in Habs.
      discriminate Habs.
    + rewrite Hc1, wrap32_small by lia. split; [lia|].
      exists f', t', (rest ++ [(f, t)]). rewrite Hins, <- app_assoc.
      split; [reflexivity | exact Hp].
  - intros s0 ins0 s1 (Hg & Hcase) _ Hrej.
    apply attempt_rejected in Hrej as (Hg1 & Hc1 & _).
    rewrite Hg1, Hc1. auto.
  - unfold chain. rewrite chain_pairs_seeded.
    destruct (seed_chain _ 1 g0) as [g1 ch] eqn:Hchain.
    pose proof (chain_pairs_seeded a g0) as Hcp. rewrite Hchain in Hcp.
    cbn [snd] in Hcp. cbn [fst enter_loop graph current_additional_edges].
    apply seed_chain_replay in Hchain as [-> _]. subst ch.
    split; [reflexivity | left; split; reflexivity].
Qed.

(** X14: with cycles, the first edge that a successful generation inserts
    after the chain joins two different vertices among the first
    [min_graph_depth] ones and is not one of the chain edges: it either
    points back along the chain, and then the stored graph has a directed
    cycle among those vertices, or it skips forward over at least one chain
    vertex. *)
Theorem forced_edge_lies_on_the_chain (a : Argv) (fresh : Z -> bool)
        (seed : nat -> N) (fuel : nat) (g : Graph.t) (ins : list (Z * Z)) :
  has_cicles a = true ->
  generate a fresh seed fuel = Generated g ins ->
  exists f t rest,
    ins = chain_pairs (min_graph_depth a) ++ (f, t) :: rest /\
    0 <= f < min_graph_depth a /\ 0 <= t < min_graph_depth a /\
    edge g f t /\
    ((t < f /\ cycle_within (edge g) (min_graph_depth a)) \/ f + 1 < t).
Proof.
  intros Hc H.
  pose proof (first_additional_pair _ _ _ _ _ _ Hc H)
    as (f & t & rest & Hins & Hf & Ht & Hne & Hnext).
  pose proof (generate_inv _ _ _ _ _ _ H) as (Hv & _).
  apply validate_passed in Hv as [Hdn _].
  pose proof (generate_counts _ _ _ _ _ _ H) as (Hg & Hn & _).
  assert (Hst : forall u v, In (u, v) ins -> fst (Graph.has_edge u v g) = true).
  { intros u v Hin. rewrite Hg. exact (replay_stores ins _ u v Hin). }
  assert (Hft : edge g f t).
  { unfold edge. rewrite Hn. repeat split; try lia.
    apply Hst. rewrite Hins. apply in_or_app. right. now left. }
  assert (Hchain : forall i, 1 <= i < min_graph_depth a -> edge g (i - 1) i).
  { intros i Hi. unfold edge. rewrite Hn. repeat split; try lia.
    apply Hst. rewrite Hins. apply in_or_app. left. apply chain_pairs_In, Hi. }
  exists f, t, rest.
  split; [exact Hins|]. split; [exact Hf|]. split; [exact Ht|].
  split; [exact Hft|].
  destruct (Z.lt_trichotomy t f) as [Hlt | [Heq | Hgt]]; [left | lia | right; lia].
  split; [exact Hlt|]. exists t.
  apply (walk_snoc _ _ t f t); [|lia | exact Hft].
  pose proof (chain_walk (edge g) (min_graph_depth a) Hchain
                (Z.to_nat (f - t - 1)) t ltac:(lia) ltac:(lia)) as Hw.
  replace (t + 1 + Z.of_nat (Z.to_nat (f - t - 1))) with f in Hw by lia.
  exact Hw.
Qed.

Lemma forced_edge_lies_on_the_chain_witness :
  has_cicles one_cyclic_edge = true /\
  exists g ins f t rest,
    generate one_cyclic_edge zeroed (minstd_rand0 1700000011) 1 = Generated g ins /\
    ins = chain_pairs (min_graph_depth one_cyclic_edge) ++ (f, t) :: rest /\
    edge g f t.
Proof.
  split; [reflexivity|].
  eexists. eexists.
  destruct (forced_edge_lies_on_the_chain one_cyclic_edge zeroed
              (minstd_rand0 1700000011) 1 _ _ eq_refl
              ltac:(vm_compute; reflexivity))
    as (f & t & rest & Hins & _ & _ & Hft & _).
  exists f, t, rest. split; [vm_compute; reflexivity|].
  split; [exact Hins | exact Hft].
Defined.

(** ** The stored graph without cycles *)



(** ** The labels in the text of the file *)






(** ** Without cycles, over a stale buffer *)

(** C5, on the arguments [5 3 0 false false] over a buffer whose byte 6 is
    stale: whatever the engine returns, generation succeeds and the two
    inserted pairs, [(0, 1)] and [(1, 2)], go upwards; but [has_edge(1, 1)]
    reads the stale byte, so the stored graph has the self-loop [(1, 1)], a
    directed cycle, and it is among the pairs that are printed.  Over a
    zeroed buffer the same run stores no cycle. *)
Theorem acyclic_run_over_stale_buffer_stores_a_cycle :
  has_cicles chain_only = false /\
  (forall seed fuel,
     exists g,
       generate chain_only stale seed fuel = Generated g [(0, 1); (1, 2)] /\
       Forall (fun e => fst e < snd e) [(0, 1); (1, 2)] /\
       edge g 1 1 /\
       cycle_within (edge g) (num_vertices chain_only) /\
       stored_edges g = [(0, 1); (1, 1); (1, 2)]) /\
  (forall seed fuel,
     exists g,
       generate chain_only zeroed seed fuel = Generated g [(0, 1); (1, 2)] /\
       ~ cycle_within (edge g) (num_vertices chain_only) /\
       stored_edges g = [(0, 1); (1, 2)]).
Proof.
  split; [vm_compute; reflexivity|]. split.
  - intros seed fuel.
    assert (Hgen : exists g,
               generate chain_only stale seed fuel = Generated g [(0, 1); (1, 2)] /\
               edge g 1 1 /\ stored_edges g = [(0, 1); (1, 1); (1, 2)]).
    { destruct fuel; eexists;
        (split; [vm_compute; reflexivity|]);
        (split; [|vm_compute; reflexivity]);
        unfold edge;
        (split; [vm_compute; split; discriminate || reflexivity|]);
        (split; [vm_compute; split; discriminate || reflexivity|]);
        vm_compute; reflexivity. }
    destruct Hgen as (g & Hg & He & Hst). exists g.
    split; [exact Hg|].
    split; [constructor; [vm_compute; reflexivity|];
            constructor; [vm_compute; reflexivity | constructor]|].
    split; [exact He|]. split; [|exact Hst].
    exists 1.
    apply walk_edge; [vm_compute; reflexivity | vm_compute; reflexivity | exact He].
  - intros seed fuel.
    assert (Hgen : exists g,
               generate chain_only zeroed seed fuel = Generated g [(0, 1); (1, 2)] /\
               stored_edges g = [(0, 1); (1, 2)]).
    { destruct fuel; eexists; (split; [vm_compute; reflexivity|]);
        vm_compute; reflexivity. }
    destruct Hgen as (g & Hg & Hst). exists g.
    split; [exact Hg|]. split; [|exact Hst].
    apply (acyclic_generation_is_a_dag_on_a_zeroed_buffer chain_only seed fuel g
             [(0, 1); (1, 2)]);
      [vm_compute; reflexivity | vm_compute; discriminate | exact Hg].
Qed.
